(** * chatbot3server: the chat store, the history trimmer and the HTTP handlers

    A shallow embedding of [src/server.js].  JavaScript strings are sequences
    of UTF-16 code units, request bodies and upstream completions are JSON
    values, the process-wide [Map] of chats is an insertion-ordered
    association list, and the asynchronous POST handler is split at its
    single [await] so that other requests may run in between. *)

From Stdlib Require Import ZArith NArith Ascii String.
From stdpp Require Import base decidable option numbers list.

Set Warnings "-register-all".
Local Open Scope nat_scope.

(** ** JavaScript values *)

Module Js.

(** A string is its sequence of UTF-16 code units. *)
Definition jsstring := list N.

(** An ASCII literal of the source, as code units. *)
Definition lit (s : string) : jsstring :=
  N_of_ascii <$> list_ascii_of_string s.
Arguments lit s%_string.

(** The values a parsed JSON document (a request body, an upstream
    completion) is made of, with [undefined] for what is absent.  A number is
    only ever tested for truthiness and for its [typeof]. *)
Inductive jsval : Type :=
| JUndefined
| JNull
| JBool (b : bool)
| JNum (n : Z)
| JStr (s : jsstring)
| JArr (items : list jsval)
| JObj (fields : list (jsstring * jsval)).

(** [!v] is [negb (truthy v)]. *)
Definition truthy (v : jsval) : bool :=
  match v with
  | JUndefined | JNull => false
  | JBool b => b
  | JNum n => negb (n =? 0)%Z
  | JStr s => match s with [] => false | _ :: _ => true end
  | JArr _ | JObj _ => true
  end.

(** [typeof v === "string"]. *)
Definition is_string (v : jsval) : bool :=
  match v with JStr _ => true | _ => false end.

(** [a || b]. *)
Definition js_or (a b : jsval) : jsval := if truthy a then a else b.

(** First binding of a key in an object's own properties. *)
Fixpoint own_prop (fields : list (jsstring * jsval)) (k : jsstring) : jsval :=
  match fields with
  | [] => JUndefined
  | (k', v) :: fields' => if decide (k' = k) then v else own_prop fields' k
  end.

(** [v.k] for a data key [k] that no prototype defines (the source reads
    [chatId], [message], [choices] and [content]): an own property of an
    object, [undefined] on anything else that is not nullish. *)
Definition get_prop (v : jsval) (k : jsstring) : jsval :=
  match v with
  | JObj fields => own_prop fields k
  | _ => JUndefined
  end.

(** [v[0]]: the first element of an array, the first code unit of a string,
    the property ["0"] of an object. *)
Definition get_index0 (v : jsval) : jsval :=
  match v with
  | JArr items => match items with [] => JUndefined | x :: _ => x end
  | JStr s => match s with [] => JUndefined | c :: _ => JStr [c] end
  | JObj fields => own_prop fields (lit "0")
  | _ => JUndefined
  end.

(** [v?.step]: [None] when [v] is nullish, which ends the whole chain. *)
Definition opt_chain (v : jsval) (step : jsval -> jsval) : option jsval :=
  match v with
  | JUndefined | JNull => None
  | _ => Some (step v)
  end.

(** WhiteSpace and LineTerminator code points of ECMAScript, the ones
    [String.prototype.trim] strips; all lie in the basic plane. *)
Definition is_ws (c : N) : bool :=
  ((c =? 9) || (c =? 10) || (c =? 11) || (c =? 12) || (c =? 13) || (c =? 32)
   || (c =? 160) || (c =? 5760) || ((8192 <=? c) && (c <=? 8202))
   || (c =? 8232) || (c =? 8233) || (c =? 8239) || (c =? 8287)
   || (c =? 12288) || (c =? 65279))%N.

Fixpoint trim_start (s : jsstring) : jsstring :=
  match s with
  | [] => []
  | c :: s' => if is_ws c then trim_start s' else s
  end.

Definition trim_end (s : jsstring) : jsstring :=
  reverse (trim_start (reverse s)).

(** [s.trim()]. *)
Definition trim (s : jsstring) : jsstring := trim_end (trim_start s).

(** [arr.slice(-n)]: the last [n] elements, all of them when there are
    fewer; [-0] is [0], so [slice(-0)] copies the whole array. *)
Definition slice_last {A : Type} (n : nat) (arr : list A) : list A :=
  match n with
  | 0 => arr
  | S _ => drop (length arr - n) arr
  end.

End Js.

Import Js.

(** ** Messages and the history trimmer *)

Record Message : Type := mkMessage { role : jsstring; content : jsstring }.

#[global] Instance Message_eq_dec : EqDecision Message.
Proof. solve_decision. Defined.

(** The Hebrew prompt of [server.js], as code units. *)
Definition SYSTEM_PROMPT : jsstring :=
  [1488; 1514; 1492; 32; 1510; 39; 1488; 1496; 1489; 1493; 1496; 32; 1506;
   1493; 1494; 1512; 44; 32; 1506; 1504; 1492; 32; 1489; 1511; 1510; 1512;
   1492; 32; 1493; 1489; 1512; 1493; 1512; 1492; 46]%N.

Definition MAX_TURNS : nat := 20.

(** [m.role === "system"] and its negation, the filter's predicate. *)
Definition is_system (m : Message) : Prop := role m = lit "system".
Definition not_system (m : Message) : Prop := role m <> lit "system".

#[global] Instance is_system_dec m : Decision (is_system m).
Proof. unfold is_system. apply _. Defined.
#[global] Instance not_system_dec m : Decision (not_system m).
Proof. unfold not_system. apply _. Defined.

Definition trimHistory (messages : list Message) : list Message :=
  let system :=
    match messages !! 0 with
    | Some m0 => if decide (is_system m0) then [m0] else []
    | None => []
    end in
  let rest := filter not_system messages in
  let maxMessages := MAX_TURNS * 2 in
  let trimmedRest := slice_last maxMessages rest in
  system ++ trimmedRest.

(** ** The chat store

    [const chats = new Map()]: a [Map] iterates in insertion order, [set] on
    a present key keeps its position, and [keys()] is what [GET /api/chats]
    sends, so the store is an association list. *)

Module JsMap.
Abbreviation t V := (list (jsstring * V)).

Section JsMap.
Context {V : Type}.

Definition empty : t V := [].

Fixpoint get (m : t V) (k : jsstring) : option V :=
  match m with
  | [] => None
  | (k', v) :: m' => if decide (k' = k) then Some v else get m' k
  end.

Definition has (m : t V) (k : jsstring) : bool :=
  match get m k with Some _ => true | None => false end.

Fixpoint set (m : t V) (k : jsstring) (v : V) : t V :=
  match m with
  | [] => [(k, v)]
  | (k', v') :: m' =>
      if decide (k' = k) then (k, v) :: m' else (k', v') :: set m' k v
  end.

Definition delete (m : t V) (k : jsstring) : t V :=
  filter (fun kv => kv.1 <> k) m.

Definition keys (m : t V) : list jsstring := fst <$> m.
End JsMap.
End JsMap.

Abbreviation store := (JsMap.t (list Message)).

Definition system_message : Message :=
  {| role := lit "system"; content := SYSTEM_PROMPT |}.
Definition user_message (text : jsstring) : Message :=
  {| role := lit "user"; content := text |}.
Definition assistant_message (text : jsstring) : Message :=
  {| role := lit "assistant"; content := text |}.

(** [getOrCreateChat]; the array returned is the one the store holds
    ([None] stands for [undefined]). *)
Definition getOrCreateChat (chatId : jsstring) (chats : store)
  : store * option (list Message) :=
  let chats :=
    if negb (JsMap.has chats chatId)
    then JsMap.set chats chatId [system_message]
    else chats in
  (chats, JsMap.get chats chatId).

(** [arr.push(m)] on the array that [chats] holds under [chatId]: the store
    sees the longer array at once, before any [chats.set]. *)
Definition push (chats : store) (chatId : jsstring) (arr : list Message)
    (m : Message) : store * list Message :=
  let arr' := arr ++ [m] in
  (JsMap.set chats chatId arr', arr').

(** ** HTTP responses *)

Inductive body : Type :=
| BText (text : jsstring)
| BError (error : jsstring)
| BOk
| BChatIds (chatIds : list jsstring)
| BReply (reply : jsstring).

Record response : Type := mkResponse { status : nat; payload : body }.

Definition chatId_required : response :=
  mkResponse 400 (BError (lit "chatId is required")).
Definition message_required : response :=
  mkResponse 400 (BError (lit "message is required")).
Definition chat_not_found : response :=
  mkResponse 404 (BError (lit "Chat not found")).
Definition server_error : response :=
  mkResponse 500 (BError (lit "Server error")).

(** ** Synchronous handlers *)

Definition healthz : response := mkResponse 200 (BText (lit "ok")).

Definition list_chats (chats : store) : response :=
  mkResponse 200 (BChatIds (JsMap.keys chats)).

(** [DELETE /api/chat/:chatId]; a route parameter is a string. *)
Definition delete_chat (chatId : jsstring) (chats : store)
  : store * response :=
  if negb (truthy (JStr chatId)) then (chats, chatId_required)
  else if negb (JsMap.has chats chatId) then (chats, chat_not_found)
  else (JsMap.delete chats chatId, mkResponse 200 BOk).

(** ** [POST /api/chat]

    The handler runs up to its [await] in one piece, is suspended while the
    upstream call is pending, and runs to its end when the call settles.
    Whatever throws inside its [try] ends in the [catch]: 500. *)

Definition FALLBACK_REPLY : jsstring :=
  [1500; 1488; 32; 1492; 1510; 1500; 1495; 1514; 1497; 32; 1500; 1504; 1505;
   1495; 32; 1514; 1513; 1493; 1489; 1492; 46]%N.

(** The string in a value already known to be one. *)
Definition string_of (v : jsval) : jsstring :=
  match v with JStr s => s | _ => [] end.

(** Where the first half of the handler stops. *)
Inductive post_started : Type :=
| Responded (r : response)
| Awaiting (chatId : jsstring) (messages : option (list Message)).

Definition post_chat_begin (reqBody : jsval) (chats : store)
  : store * post_started :=
  let b := js_or reqBody (JObj []) in
  let chatId := get_prop b (lit "chatId") in
  let message := get_prop b (lit "message") in
  if negb (truthy chatId) || negb (is_string chatId)
  then (chats, Responded chatId_required)
  else if negb (truthy message) || negb (is_string message)
  then (chats, Responded message_required)
  else
    let chatId := string_of chatId in
    let message := string_of message in
    let '(chats, history) := getOrCreateChat chatId chats in
    match history with
    | None => (chats, Responded server_error) (* push on [undefined] throws *)
    | Some history =>
        let '(chats, history) :=
          push chats chatId history (user_message message) in
        let chats := JsMap.set chats chatId (trimHistory history) in
        (chats, Awaiting chatId (JsMap.get chats chatId))
    end.

(** How the awaited [create] call settles: the promise rejects (or
    [getOpenAI] throws before the call), or it resolves to a completion. *)
Inductive upstream : Type :=
| Rejects
| Resolves (completion : jsval).

(** [completion?.choices?.[0]?.message?.content], [None] when the chain is
    cut short. *)
Definition completion_content (completion : jsval) : option jsval :=
  choices ← opt_chain completion (fun v => get_prop v (lit "choices"));
  choice ← opt_chain choices get_index0;
  message ← opt_chain choice (fun v => get_prop v (lit "message"));
  opt_chain message (fun v => get_prop v (lit "content")).

(** [content?.trim()]: [undefined] on a cut chain or a nullish content, the
    trimmed string on a string; anything else has no [trim] to call, which
    throws ([None]). *)
Definition trimmed_content (completion : jsval) : option jsval :=
  match completion_content completion with
  | None | Some JUndefined | Some JNull => Some JUndefined
  | Some (JStr s) => Some (JStr (trim s))
  | Some _ => None
  end.

(** [const reply = ... || FALLBACK]. *)
Definition completion_reply (completion : jsval) : option jsstring :=
  trimmed ← trimmed_content completion;
  Some (string_of (js_or trimmed (JStr FALLBACK_REPLY))).

Definition post_chat_resume (chatId : jsstring) (up : upstream)
    (chats : store) : store * response :=
  match up with
  | Rejects => (chats, server_error)
  | Resolves completion =>
      match completion_reply completion with
      | None => (chats, server_error) (* [trim] is not a function *)
      | Some reply =>
          match JsMap.get chats chatId with
          | None => (chats, server_error) (* push on [undefined] throws *)
          | Some updated =>
              let '(chats, updated) :=
                push chats chatId updated (assistant_message reply) in
              let chats := JsMap.set chats chatId (trimHistory updated) in
              (chats, mkResponse 200 (BReply reply))
          end
      end
  end.

(** One request served with nothing in between, against an upstream client
    given as a function of the messages it is sent; the last component
    lists the calls made to it. *)
Definition client : Type := option (list Message) -> upstream.

Definition post_chat (openai : client) (reqBody : jsval) (chats : store)
  : store * response * list (option (list Message)) :=
  match post_chat_begin reqBody chats with
  | (chats, Responded r) => (chats, r, [])
  | (chats, Awaiting chatId messages) =>
      let '(chats, r) := post_chat_resume chatId (openai messages) chats in
      (chats, r, [messages])
  end.

(** ** The server as a transition system

    Requests are served one synchronous piece at a time; between the two
    halves of a POST any other piece may run. *)

Record server : Type :=
  mkServer { chats : store; suspended : list jsstring }.

Definition init : server := mkServer JsMap.empty [].

Inductive event : Type :=
| GetHealthz
| GetChats
| DeleteChat (chatId : jsstring)
| PostChat (reqBody : jsval)
| Settle (i : nat) (up : upstream).

(** [Settle i up] resumes the [i]-th suspended POST; there is nothing to
    resume when [i] is out of range. *)
Definition handle (e : event) (s : server) : server * option response :=
  match e with
  | GetHealthz => (s, Some healthz)
  | GetChats => (s, Some (list_chats (chats s)))
  | DeleteChat chatId =>
      let '(chats', r) := delete_chat chatId (chats s) in
      (mkServer chats' (suspended s), Some r)
  | PostChat reqBody =>
      match post_chat_begin reqBody (chats s) with
      | (chats', Responded r) => (mkServer chats' (suspended s), Some r)
      | (chats', Awaiting chatId _) =>
          (mkServer chats' (suspended s ++ [chatId]), None)
      end
  | Settle i up =>
      match suspended s !! i with
      | None => (s, None)
      | Some chatId =>
          let '(chats', r) := post_chat_resume chatId up (chats s) in
          (mkServer chats' (take i (suspended s) ++ drop (S i) (suspended s)),
           Some r)
      end
  end.

Definition run (trace : list event) (s : server) : server :=
  foldl (fun s e => (handle e s).1) s trace.

Definition reachable (s : server) : Prop := exists trace, s = run trace init.

(** ** The trimmer's contract, in the words of the specification *)

(** (a) the leading system message, if present. *)
Definition leading_system (messages : list Message) : list Message :=
  match messages with
  | m :: _ => if decide (is_system m) then [m] else []
  | [] => []
  end.

(** The non-system messages, in their original relative order. *)
Fixpoint non_system_of (messages : list Message) : list Message :=
  match messages with
  | [] => []
  | m :: messages' =>
      if decide (is_system m) then non_system_of messages'
      else m :: non_system_of messages'
  end.

(** (b) the [n] most recent of a sequence: count [n] back from its end. *)
Definition most_recent {A : Type} (n : nat) (l : list A) : list A :=
  reverse (take n (reverse l)).

Definition trim_contract (messages : list Message) : list Message :=
  leading_system messages
  ++ most_recent (MAX_TURNS * 2) (non_system_of messages).

(** ** The lazy upstream client

    [let openaiClient; function getOpenAI()].  The client class belongs to
    the [openai] package: its constructor is a parameter, [None] when it
    throws.  A call gives the cell as it leaves it, the client it returns
    ([None] when the constructor threw) and the lines it logged. *)

Definition CLIENT_INITIALIZED : jsstring :=
  [9989; 32]%N ++ lit "OpenAI client initialized".

Definition getOpenAI {Client : Type} (construct : jsval -> option Client)
    (apiKey : jsval) (openaiClient : option Client)
  : option Client * option Client * list jsstring :=
  match openaiClient with
  | None =>
      match construct apiKey with
      | Some c => (Some c, Some c, [CLIENT_INITIALIZED])
      | None => (None, None, [])
      end
  | Some c => (openaiClient, Some c, [])
  end.

(** ** Vocabulary of the statements *)

(** A field of the request as the handler destructures it. *)
Definition body_field (reqBody : jsval) (k : jsstring) : jsval :=
  get_prop (js_or reqBody (JObj [])) k.

(** A well-formed request body and a completion carrying one reply. *)
Definition chat_request (chatId message : jsval) : jsval :=
  JObj [(lit "chatId", chatId); (lit "message", message)].

Definition completion_with (content : jsval) : jsval :=
  JObj [(lit "choices",
         JArr [JObj [(lit "message", JObj [(lit "content", content)])]])].

(** The history a user's message is pushed on: the stored one, or a fresh
    one holding the system prompt. *)
Definition history_of (chats : store) (id : jsstring) : list Message :=
  default [system_message] (JsMap.get chats id).

(** Empty or made of white space only: what [trim] reduces to nothing. *)
Definition whitespace_only (s : jsstring) : Prop := forallb is_ws s = true.

(** The reply content of a completion is absent, null, empty or blank. *)
Definition no_reply_content (completion : jsval) : Prop :=
  completion_content completion = None
  \/ completion_content completion = Some JUndefined
  \/ completion_content completion = Some JNull
  \/ exists s, completion_content completion = Some (JStr s)
               /\ whitespace_only s.

(** What every stored chat looks like between two pieces of handler code:
    the system prompt, then at most [MAX_TURNS * 2] other messages. *)
Definition chat_ok (messages : list Message) : Prop :=
  exists rest,
    messages = system_message :: rest
    /\ Forall not_system rest
    /\ length rest <= MAX_TURNS * 2.

Definition store_ok (chats : store) : Prop :=
  Forall (fun kv => chat_ok kv.2) chats.

(** ** Facts about [slice] and [filter] *)

Section Slices.
Context {A : Type}.
Implicit Types (l : list A) (n : nat).

Lemma slice_last_drop n l :
  0 < n -> slice_last n l = drop (length l - n) l.
Proof. destruct n as [|n]; [lia|done]. Qed.

Lemma slice_last_0 l : slice_last 0 l = l.
Proof. done. Qed.

Lemma slice_last_short n l : length l <= n -> 0 < n -> slice_last n l = l.
Proof.
  intros Hle Hpos. destruct n as [|n]; [lia|]. simpl.
  replace (length l - S n) with 0 by lia. apply drop_0.
Qed.

Lemma length_slice_last n l :
  0 < n -> length (slice_last n l) = Nat.min n (length l).
Proof.
  intros Hpos. rewrite slice_last_drop, length_drop by done. lia.
Qed.

Lemma slice_last_suffix n l : slice_last n l `suffix_of` l.
Proof. destruct n; [done|]. apply suffix_drop. Qed.

Lemma Forall_slice_last (P : A -> Prop) n l :
  Forall P l -> Forall P (slice_last n l).
Proof. destruct n; [done|]. apply Forall_drop. Qed.

Lemma slice_last_most_recent n l : 0 < n -> slice_last n l = most_recent n l.
Proof.
  intros Hpos. unfold most_recent.
  by rewrite take_reverse, reverse_involutive, slice_last_drop.
Qed.

Lemma last_slice_last n l : 0 < n -> last (slice_last n l) = last l.
Proof.
  intros Hpos. destruct n as [|n]; [lia|]. simpl.
  destruct (decide (length l = 0)) as [Hz|Hnz].
  - destruct l; [done|discriminate].
  - rewrite !last_lookup, lookup_drop, length_drop. f_equal. lia.
Qed.
End Slices.

Arguments slice_last : simpl never.

Section Trimmer.
Implicit Types (m : Message) (messages : list Message).

Lemma max_messages : MAX_TURNS * 2 = 40.
Proof. reflexivity. Qed.

Lemma system_not_both m : is_system m -> not_system m -> False.
Proof. unfold is_system, not_system. tauto. Qed.

Lemma not_system_iff m : not_system m <-> ~ is_system m.
Proof. done. Qed.

Lemma filter_non_system_of messages :
  filter not_system messages = non_system_of messages.
Proof.
  induction messages as [|m messages IH]; [done|].
  rewrite filter_cons. simpl.
  destruct (decide (is_system m)) as [Hs|Hs].
  - rewrite decide_False; [done|]. intros Hn. by apply Hn.
  - rewrite decide_True by done. by rewrite IH.
Qed.

Lemma Forall_filter_not_system messages :
  Forall not_system (filter not_system messages).
Proof.
  induction messages as [|m messages IH]; [constructor|].
  rewrite filter_cons. case_decide; [by constructor|done].
Qed.

Lemma filter_not_system_id messages :
  Forall not_system messages -> filter not_system messages = messages.
Proof.
  induction 1 as [|m messages Hm _ IH]; [done|].
  by rewrite filter_cons_True, IH.
Qed.

Lemma head_leading_system messages :
  match messages !! 0 with
  | Some m0 => if decide (is_system m0) then [m0] else []
  | None => []
  end = leading_system messages.
Proof. by destruct messages. Qed.

(** The source function, unfolded once. *)
Lemma trimHistory_eq messages :
  trimHistory messages
  = leading_system messages
    ++ slice_last (MAX_TURNS * 2) (filter not_system messages).
Proof. unfold trimHistory. by rewrite head_leading_system. Qed.

Lemma leading_system_cases messages :
  leading_system messages = []
  \/ exists m rest,
       messages = m :: rest /\ is_system m /\ leading_system messages = [m].
Proof.
  destruct messages as [|m rest]; [by left|]. simpl.
  case_decide; [right; eauto|by left].
Qed.

Lemma Forall_kept messages :
  Forall not_system
    (slice_last (MAX_TURNS * 2) (filter not_system messages)).
Proof. apply Forall_slice_last, Forall_filter_not_system. Qed.

Lemma length_kept messages :
  length (slice_last (MAX_TURNS * 2) (filter not_system messages))
  <= MAX_TURNS * 2.
Proof. rewrite length_slice_last by (rewrite max_messages; lia). lia. Qed.

(** A sequence already of the trimmed shape is left as it is. *)
Lemma trimHistory_fixed (sys kept : list Message) :
  (sys = [] \/ exists m, sys = [m] /\ is_system m) ->
  Forall not_system kept ->
  length kept <= MAX_TURNS * 2 ->
  trimHistory (sys ++ kept) = sys ++ kept.
Proof.
  intros Hsys Hkept Hlen. rewrite trimHistory_eq.
  assert (Hpos : 0 < MAX_TURNS * 2) by (rewrite max_messages; lia).
  destruct Hsys as [->|(m & -> & Hm)]; simpl.
  - rewrite filter_not_system_id, slice_last_short by done.
    destruct Hkept as [|k kept Hk _]; [done|]. simpl.
    rewrite decide_False; [done|]. intros Hs. by apply Hk.
  - rewrite decide_True by done.
    rewrite filter_cons_False by (intros Hn; by apply Hn).
    by rewrite filter_not_system_id, slice_last_short.
Qed.

Lemma trimHistory_system_cons m rest :
  is_system m ->
  trimHistory (m :: rest)
  = m :: slice_last (MAX_TURNS * 2) (filter not_system rest).
Proof.
  intros Hm. rewrite trimHistory_eq. simpl.
  rewrite decide_True by done.
  by rewrite filter_cons_False by (intros Hn; by apply Hn).
Qed.

(** A non-system message pushed last survives the trim, as the last. *)
Lemma last_trimHistory_snoc messages m :
  not_system m -> last (trimHistory (messages ++ [m])) = Some m.
Proof.
  intros Hm. rewrite trimHistory_eq, filter_app.
  rewrite (filter_cons_True _ m []) by done. rewrite filter_nil.
  rewrite last_app, last_slice_last by (rewrite max_messages; lia).
  by rewrite last_snoc.
Qed.
End Trimmer.

(** ** The history trimmer: contract, idempotence, stray system messages *)

(** C1: for every sequence of messages, [trimHistory] returns the leading
    system message (when the first message of the input has role system),
    unchanged and first, followed by the most recent [MAX_TURNS * 2 = 40]
    non-system messages of the input in their original order: the
    non-system messages of the input, taken in the order the input has
    them, split into an older part, which is dropped, and the recent part,
    which is kept. *)
Theorem trimHistory_contract (messages : list Message) :
  MAX_TURNS * 2 = 40
  /\ trimHistory messages = trim_contract messages
  /\ exists older recent,
       non_system_of messages = older ++ recent
       /\ length recent
          = Nat.min (MAX_TURNS * 2) (length (non_system_of messages))
       /\ trimHistory messages = leading_system messages ++ recent
       /\ older ++ recent `sublist_of` messages
       /\ forall m, m ∈ older ++ recent <-> m ∈ messages /\ not_system m.
Proof.
  assert (Hpos : 0 < MAX_TURNS * 2) by (rewrite max_messages; lia).
  split; [reflexivity|]. split.
  - rewrite trimHistory_eq. unfold trim_contract.
    by rewrite filter_non_system_of, slice_last_most_recent.
  - exists (take (length (non_system_of messages) - MAX_TURNS * 2)
              (non_system_of messages)),
           (slice_last (MAX_TURNS * 2) (non_system_of messages)).
    rewrite (slice_last_drop (MAX_TURNS * 2)), take_drop by done.
    split; [done|]. split; [|split; [|split]].
    + rewrite <- slice_last_drop by done. by apply length_slice_last.
    + rewrite <- slice_last_drop by done.
      by rewrite trimHistory_eq, filter_non_system_of.
    + rewrite <- filter_non_system_of. apply sublist_filter.
    + intros m. rewrite <- filter_non_system_of, list_elem_of_filter. tauto.
Qed.

(** C6: trimming is idempotent. *)
Theorem trimHistory_idempotent (seq : list Message) :
  trimHistory (trimHistory seq) = trimHistory seq.
Proof.
  rewrite (trimHistory_eq seq). apply trimHistory_fixed.
  - destruct (leading_system_cases seq) as [->|(m & rest & _ & Hm & ->)];
      [by left|right; eauto].
  - apply Forall_kept.
  - apply length_kept.
Qed.

(** C9: whatever the length of the input, a message of role system can only
    appear in the output at index 0, and only as the message the input has
    at index 0: every other system message is removed. *)
Theorem trimHistory_drops_later_system
    (messages : list Message) (i : nat) (m : Message) :
  trimHistory messages !! i = Some m ->
  is_system m ->
  i = 0 /\ messages !! 0 = Some m.
Proof.
  rewrite trimHistory_eq. intros Hi Hm.
  assert (Hkept : forall j, slice_last (MAX_TURNS * 2)
                    (filter not_system messages) !! j = Some m -> False).
  { intros j Hj. pose proof (Forall_kept messages) as Hall.
    rewrite Forall_lookup in Hall. exact (Hall j m Hj Hm). }
  destruct (leading_system_cases messages)
    as [Hnil|(m0 & rest & -> & _ & Hlead)].
  - rewrite Hnil in Hi. simpl in Hi. by destruct (Hkept i).
  - rewrite Hlead in Hi. destruct i as [|j]; simpl in Hi.
    + split; [done|]. simpl. congruence.
    + by destruct (Hkept j).
Qed.

Lemma trimHistory_drops_later_system_witness :
  let messages :=
    [system_message; user_message (lit "hi");
     mkMessage (lit "system") (lit "again")] in
  trimHistory messages !! 0 = Some system_message
  /\ is_system system_message
  /\ 0 = 0 /\ messages !! 0 = Some system_message.
Proof.
  split; [reflexivity|]. split; [reflexivity|].
  apply (trimHistory_drops_later_system
           [system_message; user_message (lit "hi");
            mkMessage (lit "system") (lit "again")] 0 system_message);
    reflexivity.
Defined.

(** ** The store as a map *)

Section JsMapFacts.
Context {V : Type}.
Implicit Types (m : JsMap.t V) (k : jsstring) (v : V).

Lemma get_set_eq m k v : JsMap.get (JsMap.set m k v) k = Some v.
Proof.
  induction m as [|[k' v'] m IH]; simpl.
  - by rewrite decide_True.
  - destruct (decide (k' = k)) as [->|Hne]; simpl.
    + by rewrite decide_True.
    + by rewrite decide_False.
Qed.

Lemma get_set_ne m k k' v :
  k <> k' -> JsMap.get (JsMap.set m k v) k' = JsMap.get m k'.
Proof.
  intros Hne. induction m as [|[k0 v0] m IH]; simpl.
  - by rewrite decide_False.
  - destruct (decide (k0 = k)) as [->|Hk]; simpl.
    + by rewrite !decide_False.
    + by rewrite IH.
Qed.

Lemma set_set m k v1 v2 :
  JsMap.set (JsMap.set m k v1) k v2 = JsMap.set m k v2.
Proof.
  induction m as [|[k0 v0] m IH]; simpl.
  - by rewrite decide_True.
  - destruct (decide (k0 = k)) as [->|Hk]; simpl.
    + by rewrite decide_True.
    + by rewrite decide_False, IH.
Qed.

Lemma has_get m k : JsMap.has m k = true <-> is_Some (JsMap.get m k).
Proof.
  unfold JsMap.has. destruct (JsMap.get m k).
  - split; eauto.
  - split; [done|]. by intros [? ?].
Qed.

Lemma has_false_get m k : JsMap.has m k = false <-> JsMap.get m k = None.
Proof. unfold JsMap.has. by destruct (JsMap.get m k). Qed.

Lemma get_elem_of m k v : JsMap.get m k = Some v -> (k, v) ∈ m.
Proof.
  induction m as [|[k' v'] m IH]; simpl; [done|].
  destruct (decide (k' = k)) as [->|Hne].
  - intros [= ->]. apply list_elem_of_here.
  - intros Hg. apply list_elem_of_further, IH, Hg.
Qed.

Lemma get_keys m k : is_Some (JsMap.get m k) <-> k ∈ JsMap.keys m.
Proof.
  unfold JsMap.keys. induction m as [|[k' v'] m IH]; simpl.
  - split; [by intros [? ?]|]. by intros ?%elem_of_nil.
  - rewrite elem_of_cons. destruct (decide (k' = k)) as [->|Hne].
    + split; eauto.
    + rewrite IH. split; [tauto|]. intros [->|?]; done.
Qed.

Lemma get_delete_eq m k : JsMap.get (JsMap.delete m k) k = None.
Proof.
  unfold JsMap.delete. induction m as [|[k' v'] m IH]; [done|].
  rewrite filter_cons. simpl. case_decide; simpl; [|done].
  by rewrite decide_False.
Qed.

Lemma get_delete_ne m k k' :
  k <> k' -> JsMap.get (JsMap.delete m k) k' = JsMap.get m k'.
Proof.
  intros Hne. unfold JsMap.delete.
  induction m as [|[k0 v0] m IH]; [done|].
  destruct (decide (k0 = k)) as [->|Hk].
  - rewrite filter_cons_False by (simpl; tauto). simpl.
    by rewrite decide_False.
  - rewrite filter_cons_True by done. simpl. by rewrite IH.
Qed.

Lemma delete_absent m k : JsMap.get m k = None -> JsMap.delete m k = m.
Proof.
  unfold JsMap.delete. induction m as [|[k' v'] m IH]; [done|]. simpl.
  destruct (decide (k' = k)) as [->|Hne]; [done|].
  intros Hg. by rewrite filter_cons_True, IH.
Qed.

Lemma Forall_set (P : jsstring * V -> Prop) m k v :
  Forall P m -> P (k, v) -> Forall P (JsMap.set m k v).
Proof.
  intros Hm Hkv. induction Hm as [|[k' v'] m Hx Hm IH]; simpl.
  - by constructor.
  - case_decide; by constructor.
Qed.

Lemma Forall_delete (P : jsstring * V -> Prop) m k :
  Forall P m -> Forall P (JsMap.delete m k).
Proof.
  unfold JsMap.delete. induction 1 as [|kv m Hx Hm IH]; [constructor|].
  rewrite filter_cons. case_decide; [by constructor|done].
Qed.
End JsMapFacts.

(** ** The two halves of the POST handler *)

Section PostChat.
Implicit Types (chats : store) (reqBody v : jsval) (id text : jsstring).

Lemma accepted_field v :
  negb (truthy v) || negb (is_string v) = false
  <-> exists s, v = JStr s /\ s <> [].
Proof.
  split.
  - destruct v as [| |b|n|s|items|fields]; simpl;
      rewrite ?orb_true_r; try discriminate.
    destruct s; [discriminate|]. intros _. eauto.
  - intros (s & -> & Hs). by destruct s.
Qed.

Lemma not_string_rejected v :
  is_string v = false -> negb (truthy v) || negb (is_string v) = true.
Proof. intros ->. apply orb_true_r. Qed.

Lemma post_chat_begin_bad_chatId reqBody chats :
  (negb (truthy (body_field reqBody (lit "chatId")))
   || negb (is_string (body_field reqBody (lit "chatId"))) = true) ->
  post_chat_begin reqBody chats = (chats, Responded chatId_required).
Proof.
  unfold post_chat_begin, body_field. cbv zeta. by intros ->.
Qed.

Lemma post_chat_begin_bad_message reqBody chats :
  (negb (truthy (body_field reqBody (lit "chatId")))
   || negb (is_string (body_field reqBody (lit "chatId"))) = false) ->
  (negb (truthy (body_field reqBody (lit "message")))
   || negb (is_string (body_field reqBody (lit "message"))) = true) ->
  post_chat_begin reqBody chats = (chats, Responded message_required).
Proof.
  unfold post_chat_begin, body_field. cbv zeta. by intros -> ->.
Qed.

Lemma post_chat_begin_valid reqBody chats id text :
  body_field reqBody (lit "chatId") = JStr id -> id <> [] ->
  body_field reqBody (lit "message") = JStr text -> text <> [] ->
  let trimmed :=
    trimHistory (history_of chats id ++ [user_message text]) in
  post_chat_begin reqBody chats
  = (JsMap.set chats id trimmed, Awaiting id (Some trimmed)).
Proof.
  intros Hid Hne Htext Hnet. unfold post_chat_begin.
  fold (body_field reqBody (lit "chatId")).
  fold (body_field reqBody (lit "message")).
  rewrite Hid, Htext. cbv zeta.
  destruct id as [|c id]; [done|]. destruct text as [|d text]; [done|].
  simpl. unfold getOrCreateChat, history_of, JsMap.has.
  destruct (JsMap.get chats (c :: id)) as [history|] eqn:Hget; simpl.
  - rewrite Hget. unfold push. by rewrite set_set, get_set_eq.
  - rewrite get_set_eq. unfold push. by rewrite !set_set, get_set_eq.
Qed.

Lemma post_chat_resume_replies id completion reply chats updated :
  completion_reply completion = Some reply ->
  JsMap.get chats id = Some updated ->
  post_chat_resume id (Resolves completion) chats
  = (JsMap.set chats id
       (trimHistory (updated ++ [assistant_message reply])),
     mkResponse 200 (BReply reply)).
Proof.
  intros Hreply Hget. unfold post_chat_resume, push.
  by rewrite Hreply, Hget, set_set.
Qed.

Lemma post_chat_resume_cases id up chats :
  post_chat_resume id up chats = (chats, server_error)
  \/ exists reply updated,
       JsMap.get chats id = Some updated
       /\ post_chat_resume id up chats
          = (JsMap.set chats id
               (trimHistory (updated ++ [assistant_message reply])),
             mkResponse 200 (BReply reply)).
Proof.
  destruct up as [|completion]; [by left|].
  destruct (completion_reply completion) as [reply|] eqn:Hreply;
    [|left; unfold post_chat_resume; by rewrite Hreply].
  destruct (JsMap.get chats id) as [updated|] eqn:Hget;
    [|left; unfold post_chat_resume; by rewrite Hreply, Hget].
  right. exists reply, updated. split; [done|].
  by apply post_chat_resume_replies.
Qed.
End PostChat.

(** ** What trimming and the handlers preserve *)

Section Invariant.
Implicit Types (chats : store) (messages : list Message) (s : server).

Lemma system_message_is_system : is_system system_message.
Proof. reflexivity. Qed.

Lemma user_not_system text : not_system (user_message text).
Proof. unfold not_system. simpl. discriminate. Qed.

Lemma assistant_not_system text : not_system (assistant_message text).
Proof. unfold not_system. simpl. discriminate. Qed.

Lemma chat_ok_new : chat_ok [system_message].
Proof.
  exists []. split; [done|]. split; [constructor|]. simpl. lia.
Qed.

Lemma trimHistory_chat messages more :
  chat_ok messages ->
  exists rest,
    messages = system_message :: rest
    /\ trimHistory (messages ++ more)
       = system_message
         :: slice_last (MAX_TURNS * 2) (filter not_system (rest ++ more)).
Proof.
  intros (rest & -> & _ & _). exists rest. split; [done|].
  rewrite <- app_comm_cons.
  apply trimHistory_system_cons, system_message_is_system.
Qed.

Lemma chat_ok_trim messages more :
  chat_ok messages -> chat_ok (trimHistory (messages ++ more)).
Proof.
  intros Hok. destruct (trimHistory_chat messages more Hok)
    as (rest & _ & ->).
  eexists. split; [done|]. split; [apply Forall_kept|apply length_kept].
Qed.

Lemma store_ok_get chats id messages :
  store_ok chats -> JsMap.get chats id = Some messages -> chat_ok messages.
Proof.
  intros Hok Hget. unfold store_ok in Hok. rewrite Forall_forall in Hok.
  exact (Hok _ (get_elem_of _ _ _ Hget)).
Qed.

Lemma history_of_ok chats id : store_ok chats -> chat_ok (history_of chats id).
Proof.
  intros Hok. unfold history_of.
  destruct (JsMap.get chats id) as [history|] eqn:Hget; simpl.
  - by eapply store_ok_get.
  - apply chat_ok_new.
Qed.

Lemma store_ok_set chats id messages :
  store_ok chats -> chat_ok messages -> store_ok (JsMap.set chats id messages).
Proof. intros Hok Hm. by apply Forall_set. Qed.

Lemma store_ok_begin reqBody chats :
  store_ok chats -> store_ok (post_chat_begin reqBody chats).1.
Proof.
  intros Hok.
  destruct (negb (truthy (body_field reqBody (lit "chatId")))
            || negb (is_string (body_field reqBody (lit "chatId"))))
    eqn:Hid.
  { by rewrite post_chat_begin_bad_chatId. }
  destruct (negb (truthy (body_field reqBody (lit "message")))
            || negb (is_string (body_field reqBody (lit "message"))))
    eqn:Htext.
  { by rewrite post_chat_begin_bad_message. }
  apply accepted_field in Hid as (id & Hid & Hne).
  apply accepted_field in Htext as (text & Htext & Hnet).
  rewrite (post_chat_begin_valid _ _ id text) by done. simpl.
  apply store_ok_set, chat_ok_trim, history_of_ok; done.
Qed.

Lemma store_ok_resume id up chats :
  store_ok chats -> store_ok (post_chat_resume id up chats).1.
Proof.
  intros Hok.
  destruct (post_chat_resume_cases id up chats)
    as [->|(reply & updated & Hget & ->)]; [done|]. simpl.
  apply store_ok_set; [done|]. apply chat_ok_trim.
  by eapply store_ok_get.
Qed.

Lemma store_ok_delete id chats :
  store_ok chats -> store_ok (delete_chat id chats).1.
Proof.
  intros Hok. unfold delete_chat.
  destruct (negb (truthy (JStr id))); [done|].
  destruct (negb (JsMap.has chats id)); [done|]. simpl.
  by apply Forall_delete.
Qed.

Lemma store_ok_handle e s :
  store_ok (chats s) -> store_ok (chats (handle e s).1).
Proof.
  intros Hok. destruct e as [| |id|reqBody|i up]; simpl; try done.
  - pose proof (store_ok_delete id _ Hok) as Hd.
    by destruct (delete_chat id (chats s)).
  - pose proof (store_ok_begin reqBody _ Hok) as Hb.
    by destruct (post_chat_begin reqBody (chats s)) as [chats' [r|id msgs]].
  - destruct (suspended s !! i) as [id|]; [|done].
    pose proof (store_ok_resume id up _ Hok) as Hr.
    by destruct (post_chat_resume id up (chats s)).
Qed.

Lemma run_cons e trace s : run (e :: trace) s = run trace (handle e s).1.
Proof. done. Qed.

Lemma store_ok_run trace s :
  store_ok (chats s) -> store_ok (chats (run trace s)).
Proof.
  revert s. induction trace as [|e trace IH]; intros s Hok; [done|].
  rewrite run_cons. apply IH, store_ok_handle, Hok.
Qed.

Lemma reachable_store_ok s : reachable s -> store_ok (chats s).
Proof. intros [trace ->]. apply store_ok_run. constructor. Qed.
End Invariant.

(** ** Invariants of the chat store *)

(** C2: in every reachable state of the store, every chat begins with the
    fixed system prompt, the only message of role system it holds (so no
    stored chat is empty), and trimming never removes it: whatever is pushed
    on the chat, the trimmed sequence still begins with that message and
    holds no other system message. *)
Theorem reachable_chat_begins_with_system
    (s : server) (chatId : jsstring) (messages : list Message) :
  reachable s ->
  JsMap.get (chats s) chatId = Some messages ->
  exists rest,
    messages = system_message :: rest
    /\ Forall not_system rest
    /\ forall more, exists kept,
         trimHistory (messages ++ more) = system_message :: kept
         /\ Forall not_system kept.
Proof.
  intros Hreach Hget.
  pose proof (store_ok_get _ _ _ (reachable_store_ok s Hreach) Hget) as Hok.
  destruct Hok as (rest & -> & Hrest & Hlen).
  exists rest. split; [done|]. split; [done|]. intros more.
  destruct (trimHistory_chat (system_message :: rest) more)
    as (rest' & _ & ->); [by exists rest|].
  eexists. split; [done|]. apply Forall_kept.
Qed.

Lemma reachable_chat_begins_with_system_witness :
  let s := run [PostChat (chat_request (JStr (lit "c1")) (JStr (lit "hi")))]
             init in
  reachable s
  /\ JsMap.get (chats s) (lit "c1")
     = Some [system_message; user_message (lit "hi")]
  /\ exists rest,
       [system_message; user_message (lit "hi")] = system_message :: rest
       /\ Forall not_system rest
       /\ forall more, exists kept,
            trimHistory ([system_message; user_message (lit "hi")] ++ more)
            = system_message :: kept
            /\ Forall not_system kept.
Proof.
  assert (Hreach : reachable
            (run [PostChat (chat_request (JStr (lit "c1")) (JStr (lit "hi")))]
               init)).
  { by eexists. }
  split; [exact Hreach|]. split; [reflexivity|].
  apply (reachable_chat_begins_with_system _ (lit "c1") _ Hreach).
  reflexivity.
Defined.

(** C3: in every reachable state of the store, that is after each trim and
    between any two steps of the request handlers, every chat holds at most
    [MAX_TURNS * 2 = 40] messages whose role is not system. *)
Theorem reachable_chat_bounded
    (s : server) (chatId : jsstring) (messages : list Message) :
  reachable s ->
  JsMap.get (chats s) chatId = Some messages ->
  length (filter not_system messages) <= MAX_TURNS * 2
  /\ MAX_TURNS * 2 = 40.
Proof.
  intros Hreach Hget. split; [|reflexivity].
  pose proof (store_ok_get _ _ _ (reachable_store_ok s Hreach) Hget) as Hok.
  destruct Hok as (rest & -> & Hrest & Hlen).
  rewrite filter_cons_False
    by (intros Hn; apply Hn, system_message_is_system).
  by rewrite filter_not_system_id.
Qed.

Lemma reachable_chat_bounded_witness :
  let s := run [PostChat (chat_request (JStr (lit "c1")) (JStr (lit "hi")));
                Settle 0 (Resolves (completion_with (JStr (lit "hello"))))]
             init in
  reachable s
  /\ JsMap.get (chats s) (lit "c1")
     = Some [system_message; user_message (lit "hi");
             assistant_message (lit "hello")]
  /\ length (filter not_system
               [system_message; user_message (lit "hi");
                assistant_message (lit "hello")]) <= MAX_TURNS * 2
  /\ MAX_TURNS * 2 = 40.
Proof.
  assert (Hreach : reachable
            (run [PostChat (chat_request (JStr (lit "c1")) (JStr (lit "hi")));
                  Settle 0 (Resolves (completion_with (JStr (lit "hello"))))]
               init)).
  { by eexists. }
  split; [exact Hreach|]. split; [reflexivity|].
  apply (reachable_chat_bounded _ (lit "c1") _ Hreach).
  reflexivity.
Defined.

(** A chat deleted while its POST awaits the upstream client: the second
    half of the handler finds no history to push on, and answers 500. *)
Example settle_after_delete :
  handle (Settle 0 (Resolves (completion_with (JStr (lit "hello")))))
    (run [PostChat (chat_request (JStr (lit "c1")) (JStr (lit "hi")));
          DeleteChat (lit "c1")] init)
  = (init, Some (mkResponse 500 (BError (lit "Server error")))).
Proof. reflexivity. Qed.

(** Twenty-five exchanges on one chat leave the system prompt first and
    exactly forty other messages, the oldest evicted. *)
Example twenty_five_exchanges :
  let exchange n :=
    [PostChat (chat_request (JStr (lit "c1")) (JStr [N.of_nat n]));
     Settle 0 (Resolves (completion_with (JStr (lit "ok"))))] in
  let s := run (concat (exchange <$> seq 1 25)) init in
  exists rest,
    JsMap.get (chats s) (lit "c1") = Some (system_message :: rest)
    /\ length rest = 40
    /\ Forall not_system rest
    /\ head rest = Some (user_message [6%N])
    /\ last rest = Some (assistant_message (lit "ok")).
Proof.
  eexists. split; [vm_compute; reflexivity|].
  split; [reflexivity|]. split; [|split; reflexivity].
  repeat constructor; discriminate.
Qed.

(** ** Replies *)

Section Replies.
Implicit Types (s : jsstring) (completion : jsval).

Lemma trim_start_whitespace s : whitespace_only s -> trim_start s = [].
Proof.
  unfold whitespace_only. induction s as [|c s IH]; [done|]. simpl.
  intros [Hc Hs]%andb_prop. rewrite Hc. by apply IH.
Qed.

Lemma trim_whitespace s : whitespace_only s -> trim s = [].
Proof.
  intros Hs. unfold trim, trim_end.
  rewrite (trim_start_whitespace s) by done. reflexivity.
Qed.

Lemma trim_start_nil_inv s : trim_start s = [] -> whitespace_only s.
Proof.
  unfold whitespace_only. induction s as [|c s IH]; [done|]. simpl.
  destruct (is_ws c); [exact IH|discriminate].
Qed.

(** Conversely, only a blank string trims to nothing. *)
Lemma trim_nil_inv s : trim s = [] -> whitespace_only s.
Proof.
  unfold trim, trim_end. intros Hs.
  apply (f_equal reverse) in Hs. rewrite reverse_involutive in Hs.
  change (reverse []) with (@nil N) in Hs.
  apply trim_start_nil_inv in Hs. apply trim_start_nil_inv.
  destruct (trim_start s) as [|c s'] eqn:Hstart; [done|].
  exfalso. assert (Hc : is_ws c = false).
  { clear Hs. revert Hstart. induction s as [|d s IH]; [done|]. simpl.
    destruct (is_ws d) eqn:Hd; [exact IH|]. by intros [= <- _]. }
  unfold whitespace_only in Hs.
  rewrite reverse_cons, forallb_app in Hs. simpl in Hs.
  rewrite Hc in Hs. by destruct (forallb is_ws (reverse s')).
Qed.

Lemma completion_reply_fallback completion :
  no_reply_content completion ->
  completion_reply completion = Some FALLBACK_REPLY.
Proof.
  unfold completion_reply, trimmed_content.
  intros [->|[->|[->|(s & -> & Hs)]]]; try done.
  simpl. by rewrite trim_whitespace.
Qed.
End Replies.

(** ** The POST handler: failures, validation, fallback *)

(** C4: a POST with a valid [chatId] and [message] whose upstream call
    throws is answered 500 [{"error": "Server error"}]; the user's message
    has been pushed on the chat's history and stays there, last (nothing is
    rolled back when the call fails), and the chat is still listed. *)
Theorem post_chat_upstream_failure
    (openai : client) (reqBody : jsval) (chats : store)
    (chatId message : jsstring) :
  body_field reqBody (lit "chatId") = JStr chatId -> chatId <> [] ->
  body_field reqBody (lit "message") = JStr message -> message <> [] ->
  (forall messages, openai messages = Rejects) ->
  exists chats' history,
    post_chat openai reqBody chats
    = (chats', mkResponse 500 (BError (lit "Server error")), [Some history])
    /\ post_chat_begin reqBody chats = (chats', Awaiting chatId (Some history))
    /\ post_chat_resume chatId Rejects chats'
       = (chats', mkResponse 500 (BError (lit "Server error")))
    /\ JsMap.get chats' chatId = Some history
    /\ history
       = trimHistory (history_of chats chatId ++ [user_message message])
    /\ last history = Some (user_message message)
    /\ exists chatIds,
         list_chats chats' = mkResponse 200 (BChatIds chatIds)
         /\ chatId ∈ chatIds.
Proof.
  intros Hid Hne Htext Hnet Hfail.
  pose proof (post_chat_begin_valid reqBody chats chatId message
                Hid Hne Htext Hnet) as Hbegin. cbv zeta in Hbegin.
  eexists _, _. split; [|split; [exact Hbegin|]].
  { unfold post_chat. rewrite Hbegin, Hfail. reflexivity. }
  split; [reflexivity|]. split; [apply get_set_eq|].
  split; [reflexivity|].
  split; [apply last_trimHistory_snoc, user_not_system|].
  eexists. split; [reflexivity|].
  apply get_keys. rewrite get_set_eq. eauto.
Qed.

Lemma post_chat_upstream_failure_witness :
  exists chats' history,
    post_chat (fun _ => Rejects)
      (chat_request (JStr (lit "c1")) (JStr (lit "hi"))) []
    = (chats', mkResponse 500 (BError (lit "Server error")), [Some history])
    /\ post_chat_begin (chat_request (JStr (lit "c1")) (JStr (lit "hi"))) []
       = (chats', Awaiting (lit "c1") (Some history))
    /\ post_chat_resume (lit "c1") Rejects chats'
       = (chats', mkResponse 500 (BError (lit "Server error")))
    /\ JsMap.get chats' (lit "c1") = Some history
    /\ history
       = trimHistory (history_of [] (lit "c1") ++ [user_message (lit "hi")])
    /\ last history = Some (user_message (lit "hi"))
    /\ exists chatIds,
         list_chats chats' = mkResponse 200 (BChatIds chatIds)
         /\ lit "c1" ∈ chatIds.
Proof.
  apply (post_chat_upstream_failure (fun _ => Rejects)
           (chat_request (JStr (lit "c1")) (JStr (lit "hi"))) []
           (lit "c1") (lit "hi")).
  - reflexivity.
  - discriminate.
  - reflexivity.
  - discriminate.
  - reflexivity.
Defined.

(** C5: a POST whose [chatId] or [message] is missing or not a string is
    answered 400 with the error of the field that fails its check,
    ["chatId is required"] when [chatId] is not a string and
    ["message is required"] when [chatId] passes and [message] is not a
    string, before anything is touched: the store is the same, nothing is
    suspended on the upstream client, no call is made to it, and
    [GET /api/chats] lists what it listed before. *)
Theorem post_chat_rejects_malformed
    (openai : client) (reqBody : jsval) (s : server) :
  is_string (body_field reqBody (lit "chatId")) = false
  \/ is_string (body_field reqBody (lit "message")) = false ->
  exists r,
    post_chat openai reqBody (chats s) = (chats s, r, [])
    /\ handle (PostChat reqBody) s = (s, Some r)
    /\ list_chats (post_chat openai reqBody (chats s)).1.1
       = list_chats (chats s)
    /\ (r = mkResponse 400 (BError (lit "chatId is required"))
        \/ r = mkResponse 400 (BError (lit "message is required")))
    /\ (is_string (body_field reqBody (lit "chatId")) = false ->
        r = mkResponse 400 (BError (lit "chatId is required")))
    /\ (truthy (body_field reqBody (lit "chatId")) = true ->
        is_string (body_field reqBody (lit "chatId")) = true ->
        r = mkResponse 400 (BError (lit "message is required"))).
Proof.
  intros Hbad.
  destruct (negb (truthy (body_field reqBody (lit "chatId")))
            || negb (is_string (body_field reqBody (lit "chatId"))))
    eqn:Hid.
  - pose proof (post_chat_begin_bad_chatId reqBody (chats s) Hid) as Hbegin.
    exists chatId_required. unfold post_chat. simpl. rewrite Hbegin.
    destruct s as [chats0 suspended0]. repeat split; try done.
    + by left.
    + intros Ht Hs. rewrite Ht, Hs in Hid. discriminate.
  - assert (Hmsg : is_string (body_field reqBody (lit "message")) = false).
    { destruct Hbad as [Hc|Hm]; [|done].
      rewrite Hc, orb_true_r in Hid. discriminate. }
    pose proof (post_chat_begin_bad_message reqBody (chats s) Hid
                  (not_string_rejected _ Hmsg)) as Hbegin.
    exists message_required. unfold post_chat. simpl. rewrite Hbegin.
    destruct s as [chats0 suspended0]. repeat split; try done.
    + by right.
    + intros Hc. rewrite Hc, orb_true_r in Hid. discriminate.
Qed.

Lemma post_chat_rejects_malformed_witness :
  let reqBody := JObj [(lit "chatId", JStr (lit "c1"))] in
  (is_string (body_field reqBody (lit "chatId")) = false
   \/ is_string (body_field reqBody (lit "message")) = false)
  /\ exists r,
       post_chat (fun _ => Rejects) reqBody (chats init)
       = (chats init, r, [])
       /\ handle (PostChat reqBody) init = (init, Some r)
       /\ list_chats (post_chat (fun _ => Rejects) reqBody (chats init)).1.1
          = list_chats (chats init)
       /\ (r = mkResponse 400 (BError (lit "chatId is required"))
           \/ r = mkResponse 400 (BError (lit "message is required")))
       /\ (is_string (body_field reqBody (lit "chatId")) = false ->
           r = mkResponse 400 (BError (lit "chatId is required")))
       /\ (truthy (body_field reqBody (lit "chatId")) = true ->
           is_string (body_field reqBody (lit "chatId")) = true ->
           r = mkResponse 400 (BError (lit "message is required"))).
Proof.
  split; [right; reflexivity|].
  apply (post_chat_rejects_malformed (fun _ => Rejects)
           (JObj [(lit "chatId", JStr (lit "c1"))]) init).
  right. reflexivity.
Defined.

(** C10: a [chatId] or [message] that is present and a string, but the
    empty string, is rejected like an absent one: 400, with
    ["chatId is required"] for an empty [chatId] and
    ["message is required"] for an empty [message] beside a valid [chatId],
    the very response the request gets without that field; the store is
    untouched and the upstream client is not called. *)
Theorem post_chat_rejects_empty_string
    (openai : client) (reqBody : jsval) (chats : store) :
  body_field reqBody (lit "chatId") = JStr []
  \/ body_field reqBody (lit "message") = JStr [] ->
  exists r,
    post_chat openai reqBody chats = (chats, r, [])
    /\ status r = 400
    /\ (body_field reqBody (lit "chatId") = JStr [] ->
        r = mkResponse 400 (BError (lit "chatId is required"))
        /\ post_chat openai
             (JObj [(lit "message", body_field reqBody (lit "message"))])
             chats
           = (chats, r, []))
    /\ (forall chatId,
          body_field reqBody (lit "chatId") = JStr chatId -> chatId <> [] ->
          r = mkResponse 400 (BError (lit "message is required"))
          /\ post_chat openai (JObj [(lit "chatId", JStr chatId)]) chats
             = (chats, r, [])).
Proof.
  intros Hempty.
  destruct (negb (truthy (body_field reqBody (lit "chatId")))
            || negb (is_string (body_field reqBody (lit "chatId"))))
    eqn:Hid.
  - exists chatId_required. unfold post_chat.
    rewrite (post_chat_begin_bad_chatId reqBody chats Hid).
    split; [done|]. split; [done|]. split.
    + intros _. split; [done|].
      by rewrite post_chat_begin_bad_chatId.
    + intros chatId Hc Hne. rewrite Hc in Hid. by destruct chatId.
  - assert (Hmsg : body_field reqBody (lit "message") = JStr []).
    { destruct Hempty as [Hc|Hm]; [|done]. rewrite Hc in Hid. done. }
    exists message_required. unfold post_chat.
    rewrite (post_chat_begin_bad_message reqBody chats Hid)
      by (by rewrite Hmsg).
    split; [done|]. split; [done|]. split.
    + intros Hc. rewrite Hc in Hid. done.
    + intros chatId Hc Hne. split; [done|].
      rewrite post_chat_begin_bad_message; [done| |done].
      unfold body_field. simpl. by destruct chatId.
Qed.

Lemma post_chat_rejects_empty_string_witness :
  let reqBody := chat_request (JStr (lit "c1")) (JStr []) in
  (body_field reqBody (lit "chatId") = JStr []
   \/ body_field reqBody (lit "message") = JStr [])
  /\ exists r,
       post_chat (fun _ => Rejects) reqBody [] = ([], r, [])
       /\ status r = 400
       /\ (body_field reqBody (lit "chatId") = JStr [] ->
           r = mkResponse 400 (BError (lit "chatId is required"))
           /\ post_chat (fun _ => Rejects)
                (JObj [(lit "message", body_field reqBody (lit "message"))])
                []
              = ([], r, []))
       /\ (forall chatId,
             body_field reqBody (lit "chatId") = JStr chatId ->
             chatId <> [] ->
             r = mkResponse 400 (BError (lit "message is required"))
             /\ post_chat (fun _ => Rejects)
                  (JObj [(lit "chatId", JStr chatId)]) []
                = ([], r, [])).
Proof.
  split; [right; reflexivity|].
  apply (post_chat_rejects_empty_string (fun _ => Rejects)
           (chat_request (JStr (lit "c1")) (JStr [])) []).
  right. reflexivity.
Defined.

(** C8: when the upstream call succeeds but the content of the reply is
    absent, null, empty or made of white space only, the handler takes the
    fixed fallback string as the reply, pushes it on the chat as the
    assistant's message and answers 200 with it; the same holds for the
    second half of the handler alone, whenever the chat is still stored. *)
Theorem post_chat_fallback_reply
    (openai : client) (reqBody : jsval) (chats : store)
    (chatId message : jsstring) (completion : jsval) :
  body_field reqBody (lit "chatId") = JStr chatId -> chatId <> [] ->
  body_field reqBody (lit "message") = JStr message -> message <> [] ->
  (forall messages, openai messages = Resolves completion) ->
  no_reply_content completion ->
  (exists chats' sent history,
     post_chat openai reqBody chats
     = (chats', mkResponse 200 (BReply FALLBACK_REPLY), [Some sent])
     /\ sent = trimHistory (history_of chats chatId ++ [user_message message])
     /\ JsMap.get chats' chatId = Some history
     /\ history = trimHistory (sent ++ [assistant_message FALLBACK_REPLY])
     /\ last history = Some (assistant_message FALLBACK_REPLY))
  /\ (forall (stored : store) (updated : list Message),
        JsMap.get stored chatId = Some updated ->
        post_chat_resume chatId (Resolves completion) stored
        = (JsMap.set stored chatId
             (trimHistory (updated ++ [assistant_message FALLBACK_REPLY])),
           mkResponse 200 (BReply FALLBACK_REPLY))).
Proof.
  intros Hid Hne Htext Hnet Hup Hnone.
  pose proof (completion_reply_fallback completion Hnone) as Hreply.
  split.
  - pose proof (post_chat_begin_valid reqBody chats chatId message
                  Hid Hne Htext Hnet) as Hbegin. cbv zeta in Hbegin.
    eexists _, _, _. split; [|split; [reflexivity|]].
    { unfold post_chat. rewrite Hbegin, Hup.
      erewrite post_chat_resume_replies;
        [reflexivity|exact Hreply|apply get_set_eq]. }
    split; [by rewrite set_set, get_set_eq|].
    split; [reflexivity|].
    apply last_trimHistory_snoc, assistant_not_system.
  - intros stored updated Hget. by apply post_chat_resume_replies.
Qed.

Lemma post_chat_fallback_reply_witness :
  let reqBody := chat_request (JStr (lit "c1")) (JStr (lit "hi")) in
  let completion := completion_with (JStr (lit "   ")) in
  no_reply_content completion
  /\ (exists chats' sent history,
        post_chat (fun _ => Resolves completion) reqBody []
        = (chats', mkResponse 200 (BReply FALLBACK_REPLY), [Some sent])
        /\ sent
           = trimHistory (history_of [] (lit "c1")
                          ++ [user_message (lit "hi")])
        /\ JsMap.get chats' (lit "c1") = Some history
        /\ history = trimHistory (sent ++ [assistant_message FALLBACK_REPLY])
        /\ last history = Some (assistant_message FALLBACK_REPLY))
  /\ (forall (stored : store) (updated : list Message),
        JsMap.get stored (lit "c1") = Some updated ->
        post_chat_resume (lit "c1") (Resolves completion) stored
        = (JsMap.set stored (lit "c1")
             (trimHistory (updated ++ [assistant_message FALLBACK_REPLY])),
           mkResponse 200 (BReply FALLBACK_REPLY))).
Proof.
  assert (Hnone : no_reply_content (completion_with (JStr (lit "   ")))).
  { right. right. right. exists (lit "   "). split; reflexivity. }
  split; [exact Hnone|].
  apply (post_chat_fallback_reply
           (fun _ => Resolves (completion_with (JStr (lit "   "))))
           (chat_request (JStr (lit "c1")) (JStr (lit "hi"))) []
           (lit "c1") (lit "hi") (completion_with (JStr (lit "   ")))).
  - reflexivity.
  - discriminate.
  - reflexivity.
  - discriminate.
  - reflexivity.
  - exact Hnone.
Defined.

(** ** Deleting a chat *)

(** C7: [DELETE /api/chat/:chatId], whose route parameter is never empty:
    when the chat is stored the answer is 200 [{"ok": true}] and the chat is
    removed, the other chats staying as they are, so that a second delete
    of the same [chatId] is answered 404; when it is not stored the answer
    is 404 [{"error": "Chat not found"}] and the store is unchanged. *)
Theorem delete_chat_found_or_not (chatId : jsstring) (chats : store) :
  chatId <> [] ->
  (JsMap.has chats chatId = true ->
   exists chats',
     delete_chat chatId chats = (chats', mkResponse 200 BOk)
     /\ JsMap.has chats' chatId = false
     /\ (chatId ∉ JsMap.keys chats')
     /\ (forall other, other <> chatId ->
           JsMap.get chats' other = JsMap.get chats other)
     /\ delete_chat chatId chats'
        = (chats', mkResponse 404 (BError (lit "Chat not found"))))
  /\ (JsMap.has chats chatId = false ->
      delete_chat chatId chats
      = (chats, mkResponse 404 (BError (lit "Chat not found")))).
Proof.
  intros Hne.
  assert (Htruthy : negb (truthy (JStr chatId)) = false)
    by (by destruct chatId).
  assert (Hgone : JsMap.has (JsMap.delete chats chatId) chatId = false).
  { apply has_false_get, get_delete_eq. }
  split.
  - intros Hhas. exists (JsMap.delete chats chatId).
    unfold delete_chat. rewrite Htruthy, Hhas, Hgone. simpl.
    split; [done|]. split; [done|]. split; [|split; [|done]].
    + rewrite <- get_keys, get_delete_eq. by intros [? ?].
    + intros other Hother. by apply get_delete_ne.
  - intros Hhas. unfold delete_chat. by rewrite Htruthy, Hhas.
Qed.

Lemma delete_chat_found_or_not_witness :
  let chats : store := [(lit "c1", [system_message])] in
  lit "c1" <> []
  /\ JsMap.has chats (lit "c1") = true
  /\ (JsMap.has chats (lit "c1") = true ->
      exists chats',
        delete_chat (lit "c1") chats = (chats', mkResponse 200 BOk)
        /\ JsMap.has chats' (lit "c1") = false
        /\ (lit "c1" ∉ JsMap.keys chats')
        /\ (forall other, other <> lit "c1" ->
              JsMap.get chats' other = JsMap.get chats other)
        /\ delete_chat (lit "c1") chats'
           = (chats', mkResponse 404 (BError (lit "Chat not found"))))
  /\ (JsMap.has chats (lit "c1") = false ->
      delete_chat (lit "c1") chats
      = (chats, mkResponse 404 (BError (lit "Chat not found")))).
Proof.
  split; [discriminate|]. split; [reflexivity|].
  apply (delete_chat_found_or_not (lit "c1") [(lit "c1", [system_message])]).
  discriminate.
Defined.


(** * Further properties *)

(** ** More on slices and the trimmer *)

Section MoreSlices.
Context {A : Type}.
Implicit Types (l k : list A) (n : nat).

Lemma slice_last_absorb n l k :
  0 < n -> slice_last n (slice_last n l ++ k) = slice_last n (l ++ k).
Proof.
  intros Hpos. rewrite !slice_last_drop by done.
  rewrite !length_app, length_drop.
  destruct (decide (length l <= n)) as [Hle|Hgt].
  - replace (length l - n) with 0 by lia. by rewrite drop_0, Nat.sub_0_r.
  - replace (length l - (length l - n) + length k - n) with (length k) by lia.
    replace (length l + length k - n) with ((length l - n) + length k) by lia.
    rewrite <- drop_drop. f_equal. rewrite drop_app_le by lia. done.
Qed.

Lemma slice_last_sublist n l : slice_last n l `sublist_of` l.
Proof. destruct n; [done|]. apply sublist_drop. Qed.

End MoreSlices.

Section MoreTrimmer.
Implicit Types (m : Message) (messages more : list Message).

Lemma length_leading_system messages : length (leading_system messages) <= 1.
Proof.
  destruct messages as [|m rest]; simpl; [lia|]. case_decide; simpl; lia.
Qed.

Lemma leading_system_sublist messages :
  leading_system messages
  ++ slice_last (MAX_TURNS * 2) (filter not_system messages)
  `sublist_of` messages.
Proof.
  destruct messages as [|m rest]; [done|]. simpl.
  destruct (decide (is_system m)) as [Hm|Hm].
  - rewrite filter_cons_False by (intros Hn; by apply Hn). simpl.
    apply sublist_skip. etrans; [apply slice_last_sublist|].
    apply sublist_filter.
  - simpl. etrans; [apply slice_last_sublist|]. apply sublist_filter.
Qed.

Lemma leading_system_kept_app (kept : list Message) more :
  kept <> [] -> Forall not_system kept -> leading_system (kept ++ more) = [].
Proof.
  intros Hne Hkept. destruct Hkept as [|k kept Hk _]; [done|]. simpl.
  rewrite decide_False; [done|]. intros Hs. by apply Hk.
Qed.

Lemma kept_nonempty m messages :
  not_system m ->
  slice_last (MAX_TURNS * 2) (filter not_system (m :: messages)) <> [].
Proof.
  intros Hm Hnil. apply (f_equal length) in Hnil.
  rewrite length_slice_last in Hnil by (rewrite max_messages; lia).
  rewrite filter_cons_True, max_messages in Hnil by done.
  simpl in Hnil. lia.
Qed.
End MoreTrimmer.

(** X1: the trimmed sequence is never longer than [MAX_TURNS * 2 + 1 = 41]
    messages nor than the input: it holds the leading system message, when
    there is one, and as many non-system messages as the input has, up to
    [MAX_TURNS * 2]. *)
Theorem trimHistory_length (messages : list Message) :
  length (trimHistory messages)
  = length (leading_system messages)
    + Nat.min (MAX_TURNS * 2) (length (filter not_system messages))
  /\ length (trimHistory messages) <= MAX_TURNS * 2 + 1
  /\ length (trimHistory messages) <= length messages.
Proof.
  assert (Hlen : length (trimHistory messages)
                 = length (leading_system messages)
                   + Nat.min (MAX_TURNS * 2)
                       (length (filter not_system messages))).
  { rewrite trimHistory_eq, length_app.
    by rewrite length_slice_last by (rewrite max_messages; lia). }
  split; [exact Hlen|]. split.
  - rewrite Hlen. pose proof (length_leading_system messages). lia.
  - rewrite trimHistory_eq. apply sublist_length, leading_system_sublist.
Qed.

(** X2: trimming only removes messages: what it returns is a subsequence
    of its input, with nothing added, changed or reordered. *)
Theorem trimHistory_sublist (messages : list Message) :
  trimHistory messages `sublist_of` messages.
Proof. rewrite trimHistory_eq. apply leading_system_sublist. Qed.

Lemma trimHistory_absorbs_cons (m : Message) (rest more : list Message) :
  trimHistory (trimHistory (m :: rest) ++ more)
  = trimHistory ((m :: rest) ++ more).
Proof.
  assert (Hpos : 0 < MAX_TURNS * 2) by (rewrite max_messages; lia).
  destruct (decide (is_system m)) as [Hm|Hm].
  - rewrite (trimHistory_system_cons m rest Hm). rewrite <- !app_comm_cons.
    rewrite !trimHistory_system_cons by done. f_equal.
    rewrite !filter_app, (filter_not_system_id _ (Forall_kept rest)).
    by apply slice_last_absorb.
  - rewrite (trimHistory_eq (m :: rest)). simpl leading_system.
    rewrite decide_False by done. rewrite app_nil_l.
    rewrite !trimHistory_eq.
    rewrite leading_system_kept_app
      by (apply kept_nonempty || apply Forall_kept; done).
    simpl leading_system. rewrite decide_False by done.
    rewrite !app_nil_l, !filter_app,
      (filter_not_system_id _ (Forall_kept (m :: rest))).
    by apply slice_last_absorb.
Qed.

(** X3: trimming between two pushes changes nothing in the end: trimming,
    pushing more messages and trimming again gives what pushing them all
    and trimming once gives. *)
Theorem trimHistory_absorbs_trim (messages more : list Message) :
  trimHistory (trimHistory messages ++ more) = trimHistory (messages ++ more).
Proof.
  destruct messages as [|m rest].
  - reflexivity.
  - apply trimHistory_absorbs_cons.
Qed.

(** X4: the sequences trimming leaves as they are, are exactly those made
    of at most one leading system message followed by at most
    [MAX_TURNS * 2] messages, none of role system. *)
Theorem trimHistory_fixed_points (messages : list Message) :
  trimHistory messages = messages
  <-> exists sys kept,
        messages = sys ++ kept
        /\ (sys = [] \/ exists m, sys = [m] /\ is_system m)
        /\ Forall not_system kept
        /\ length kept <= MAX_TURNS * 2.
Proof.
  split.
  - intros Hfix.
    exists (leading_system messages),
      (slice_last (MAX_TURNS * 2) (filter not_system messages)).
    split; [by rewrite <- trimHistory_eq|]. split.
    + destruct (leading_system_cases messages)
        as [->|(m & rest & _ & Hm & ->)]; [by left|right; eauto].
    + split; [apply Forall_kept|apply length_kept].
  - intros (sys & kept & -> & Hsys & Hkept & Hlen).
    by apply trimHistory_fixed.
Qed.

Lemma trimHistory_evicts_oldest_aux (m0 : Message) (rest : list Message) :
  is_system m0 ->
  Forall not_system rest ->
  trimHistory (m0 :: rest) = m0 :: drop (length rest - MAX_TURNS * 2) rest.
Proof.
  intros Hm Hrest. rewrite trimHistory_system_cons by done.
  rewrite filter_not_system_id by done.
  by rewrite slice_last_drop by (rewrite max_messages; lia).
Qed.

(** X5: on a system message followed by non-system messages, trimming
    evicts from the front of what follows the system message exactly as
    many messages as exceed [MAX_TURNS * 2], and none when they fit. *)
Theorem trimHistory_evicts_oldest (m0 : Message) (rest : list Message) :
  is_system m0 ->
  Forall not_system rest ->
  trimHistory (m0 :: rest) = m0 :: drop (length rest - MAX_TURNS * 2) rest
  /\ (length rest <= MAX_TURNS * 2 -> trimHistory (m0 :: rest) = m0 :: rest).
Proof.
  intros Hm Hrest. rewrite trimHistory_evicts_oldest_aux by done.
  split; [done|]. intros Hle.
  replace (length rest - MAX_TURNS * 2) with 0 by lia. done.
Qed.

Lemma trimHistory_evicts_oldest_witness :
  let rest := user_message <$> ((fun n => [N.of_nat n]) <$> seq 1 42) in
  is_system system_message
  /\ Forall not_system rest
  /\ trimHistory (system_message :: rest)
     = system_message :: drop (length rest - MAX_TURNS * 2) rest
  /\ (length rest <= MAX_TURNS * 2 ->
      trimHistory (system_message :: rest) = system_message :: rest).
Proof.
  assert (Hrest : Forall not_system
            (user_message <$> ((fun n => [N.of_nat n]) <$> seq 1 42))).
  { apply Forall_fmap, Forall_true. intros text. apply user_not_system. }
  split; [reflexivity|]. split; [exact Hrest|].
  apply (trimHistory_evicts_oldest system_message _ eq_refl Hrest).
Defined.

(** ** More on the store *)

Section MoreJsMap.
Context {V : Type}.
Implicit Types (m : JsMap.t V) (k : jsstring) (v : V).

Lemma set_absent m k v : JsMap.get m k = None -> JsMap.set m k v = m ++ [(k, v)].
Proof.
  induction m as [|[k' v'] m IH]; simpl; [done|].
  destruct (decide (k' = k)) as [->|Hne]; [done|].
  intros Hg. by rewrite IH.
Qed.

Lemma keys_set_present m k v :
  is_Some (JsMap.get m k) -> JsMap.keys (JsMap.set m k v) = JsMap.keys m.
Proof.
  unfold JsMap.keys. induction m as [|[k' v'] m IH]; simpl.
  - by intros [? ?].
  - destruct (decide (k' = k)) as [->|Hne]; simpl; [done|].
    intros Hg. f_equal. by apply IH.
Qed.

Lemma keys_set_absent m k v :
  JsMap.get m k = None -> JsMap.keys (JsMap.set m k v) = JsMap.keys m ++ [k].
Proof.
  intros Hg. rewrite set_absent by done. unfold JsMap.keys.
  by rewrite fmap_app.
Qed.

Lemma keys_delete m k :
  JsMap.keys (JsMap.delete m k) = filter (fun k' => k' <> k) (JsMap.keys m).
Proof.
  unfold JsMap.keys, JsMap.delete. induction m as [|[k' v'] m IH]; [done|].
  rewrite fmap_cons, !filter_cons. simpl.
  destruct (decide (k' <> k)); [rewrite fmap_cons; f_equal|]; exact IH.
Qed.

Lemma filter_keys_absent m k :
  JsMap.get m k = None -> filter (fun k' => k' <> k) (JsMap.keys m) = JsMap.keys m.
Proof.
  intros Hg. rewrite <- keys_delete. by rewrite delete_absent.
Qed.

Lemma delete_set_absent m k v :
  JsMap.get m k = None -> JsMap.delete (JsMap.set m k v) k = m.
Proof.
  intros Hg. rewrite set_absent by done. unfold JsMap.delete.
  rewrite filter_app. fold (JsMap.delete m k). rewrite delete_absent by done.
  rewrite filter_cons_False by (simpl; tauto). by rewrite app_nil_r.
Qed.

Lemma keys_set_elem m k v k' :
  k' ∈ JsMap.keys (JsMap.set m k v) <-> k' = k \/ k' ∈ JsMap.keys m.
Proof.
  destruct (JsMap.get m k) as [v0|] eqn:Hg.
  - rewrite keys_set_present by eauto. split; [tauto|].
    intros [->|?]; [|done]. apply get_keys. eauto.
  - rewrite keys_set_absent, elem_of_app, list_elem_of_singleton by done.
    tauto.
Qed.

Lemma NoDup_keys_set m k v :
  NoDup (JsMap.keys m) -> NoDup (JsMap.keys (JsMap.set m k v)).
Proof.
  intros Hnd. destruct (JsMap.get m k) as [v0|] eqn:Hg.
  - by rewrite keys_set_present by eauto.
  - rewrite keys_set_absent by done. apply NoDup_app.
    split; [done|]. split; [|apply NoDup_singleton].
    intros k' Hin ->%list_elem_of_singleton.
    apply get_keys in Hin as [v' Hv']. congruence.
Qed.

Lemma NoDup_keys_delete m k :
  NoDup (JsMap.keys m) -> NoDup (JsMap.keys (JsMap.delete m k)).
Proof. intros Hnd. rewrite keys_delete. by apply NoDup_filter. Qed.
End MoreJsMap.

(** ** More on the handlers *)

Section MoreHandlers.
Implicit Types (chats : store) (reqBody : jsval) (id text : jsstring).

Lemma post_chat_begin_cases reqBody chats :
  post_chat_begin reqBody chats = (chats, Responded chatId_required)
  \/ post_chat_begin reqBody chats = (chats, Responded message_required)
  \/ exists id text,
       body_field reqBody (lit "chatId") = JStr id /\ id <> []
       /\ body_field reqBody (lit "message") = JStr text /\ text <> []
       /\ post_chat_begin reqBody chats
          = (JsMap.set chats id
               (trimHistory (history_of chats id ++ [user_message text])),
             Awaiting id
               (Some (trimHistory
                        (history_of chats id ++ [user_message text])))).
Proof.
  destruct (negb (truthy (body_field reqBody (lit "chatId")))
            || negb (is_string (body_field reqBody (lit "chatId"))))
    eqn:Hid.
  { left. by apply post_chat_begin_bad_chatId. }
  destruct (negb (truthy (body_field reqBody (lit "message")))
            || negb (is_string (body_field reqBody (lit "message"))))
    eqn:Htext.
  { right. left. by apply post_chat_begin_bad_message. }
  apply accepted_field in Hid as (id & Hid & Hne).
  apply accepted_field in Htext as (text & Htext & Hnet).
  right. right. exists id, text. repeat (split; [done|]).
  by apply post_chat_begin_valid.
Qed.

Lemma keys_resume id up chats :
  JsMap.keys (post_chat_resume id up chats).1 = JsMap.keys chats.
Proof.
  destruct (post_chat_resume_cases id up chats)
    as [->|(reply & updated & Hget & ->)]; [done|]. simpl.
  apply keys_set_present. eauto.
Qed.

Lemma keys_delete_chat id chats :
  id <> [] ->
  JsMap.keys (delete_chat id chats).1
  = filter (fun k => k <> id) (JsMap.keys chats).
Proof.
  intros Hne. unfold delete_chat.
  replace (negb (truthy (JStr id))) with false by (by destruct id).
  unfold JsMap.has. destruct (JsMap.get chats id) as [h|] eqn:Hget; simpl.
  - apply keys_delete.
  - by rewrite filter_keys_absent.
Qed.

Lemma keys_delete_chat_subseteq id chats k :
  k ∈ JsMap.keys (delete_chat id chats).1 -> k ∈ JsMap.keys chats.
Proof.
  unfold delete_chat. destruct (negb (truthy (JStr id))); [done|].
  destruct (negb (JsMap.has chats id)); [done|]. simpl.
  rewrite keys_delete, list_elem_of_filter. tauto.
Qed.

Lemma NoDup_keys_delete_chat id chats :
  NoDup (JsMap.keys chats) -> NoDup (JsMap.keys (delete_chat id chats).1).
Proof.
  intros Hnd. unfold delete_chat. destruct (negb (truthy (JStr id))); [done|].
  destruct (negb (JsMap.has chats id)); [done|]. simpl.
  by apply NoDup_keys_delete.
Qed.

Lemma NoDup_keys_begin reqBody chats :
  NoDup (JsMap.keys chats) ->
  NoDup (JsMap.keys (post_chat_begin reqBody chats).1).
Proof.
  intros Hnd. destruct (post_chat_begin_cases reqBody chats)
    as [->|[->|(id & text & _ & _ & _ & _ & ->)]]; try done.
  by apply NoDup_keys_set.
Qed.

Lemma keys_begin_nonempty reqBody chats k :
  k ∈ JsMap.keys (post_chat_begin reqBody chats).1 ->
  k ∈ JsMap.keys chats \/ k <> [].
Proof.
  destruct (post_chat_begin_cases reqBody chats)
    as [->|[->|(id & text & _ & Hne & _ & _ & ->)]]; try (by left).
  simpl. rewrite keys_set_elem. intros [->|?]; [by right|by left].
Qed.

Lemma keys_handle e (s : server) :
  NoDup (JsMap.keys (chats s)) /\ [] ∉ JsMap.keys (chats s) ->
  NoDup (JsMap.keys (chats (handle e s).1))
  /\ [] ∉ JsMap.keys (chats (handle e s).1).
Proof.
  intros [Hnd Hne]. destruct e as [| |id|reqBody|i up]; simpl; try done.
  - pose proof (NoDup_keys_delete_chat id _ Hnd) as Hd.
    pose proof (keys_delete_chat_subseteq id (chats s) []) as Hsub.
    destruct (delete_chat id (chats s)); simpl in *. split; [done|]. tauto.
  - pose proof (NoDup_keys_begin reqBody _ Hnd) as Hb.
    pose proof (keys_begin_nonempty reqBody (chats s) []) as Hsub.
    destruct (post_chat_begin reqBody (chats s)) as [chats' [r|id msgs]];
      simpl in *; (split; [done|]); intros Hin;
      destruct (Hsub Hin); done.
  - destruct (suspended s !! i) as [id|]; [|done].
    pose proof (keys_resume id up (chats s)) as Hr.
    destruct (post_chat_resume id up (chats s)); simpl in *.
    by rewrite Hr.
Qed.

Lemma keys_reachable (s : server) :
  reachable s ->
  NoDup (JsMap.keys (chats s)) /\ [] ∉ JsMap.keys (chats s).
Proof.
  intros [trace ->].
  assert (Hall : forall s0,
             NoDup (JsMap.keys (chats s0)) /\ [] ∉ JsMap.keys (chats s0) ->
             NoDup (JsMap.keys (chats (run trace s0)))
             /\ [] ∉ JsMap.keys (chats (run trace s0))).
  { induction trace as [|e trace IH]; intros s0 H0; [done|].
    rewrite run_cons. apply IH, keys_handle, H0. }
  apply Hall. split; [apply NoDup_nil_2|apply not_elem_of_nil].
Qed.
End MoreHandlers.

(** ** The chat store: creation, listing, deletion *)

(** X6: for a chat identifier the store does not hold, [getOrCreateChat]
    returns a history made of the system prompt alone and adds the chat
    after all the chats already there, which it leaves as they are. *)
Theorem getOrCreateChat_fresh (chatId : jsstring) (chats : store) :
  JsMap.get chats chatId = None ->
  getOrCreateChat chatId chats
  = (chats ++ [(chatId, [system_message])], Some [system_message]).
Proof.
  intros Hget. unfold getOrCreateChat, JsMap.has. rewrite Hget. simpl.
  by rewrite get_set_eq, set_absent.
Qed.

Lemma getOrCreateChat_fresh_witness :
  let chats : store := [(lit "a", [system_message; user_message (lit "hi")])] in
  JsMap.get chats (lit "b") = None
  /\ getOrCreateChat (lit "b") chats
     = (chats ++ [(lit "b", [system_message])], Some [system_message]).
Proof.
  split; [reflexivity|].
  apply (getOrCreateChat_fresh (lit "b")
           [(lit "a", [system_message; user_message (lit "hi")])]).
  reflexivity.
Defined.

(** X7: [getOrCreateChat] never returns [undefined]: it returns the history
    the store holds under the identifier once it is done, a stored chat is
    returned as it is with the store unchanged, the other chats are not
    touched, and calling it again changes nothing. *)
Theorem getOrCreateChat_stable (chatId : jsstring) (chats : store) :
  exists history,
    getOrCreateChat chatId chats
    = ((getOrCreateChat chatId chats).1, Some history)
    /\ JsMap.get (getOrCreateChat chatId chats).1 chatId = Some history
    /\ getOrCreateChat chatId (getOrCreateChat chatId chats).1
       = getOrCreateChat chatId chats
    /\ (forall stored,
          JsMap.get chats chatId = Some stored ->
          getOrCreateChat chatId chats = (chats, Some stored))
    /\ (forall other,
          other <> chatId ->
          JsMap.get (getOrCreateChat chatId chats).1 other
          = JsMap.get chats other).
Proof.
  unfold getOrCreateChat, JsMap.has.
  destruct (JsMap.get chats chatId) as [stored|] eqn:Hget; simpl.
  - exists stored. rewrite !Hget. simpl. rewrite Hget.
    repeat split; try done. by intros ? [= ->].
  - exists [system_message]. rewrite !get_set_eq. simpl.
    rewrite get_set_eq. repeat split; try done.
    intros other Hother. by apply get_set_ne.
Qed.

(** X8: creating a chat that was not stored and deleting it again gives
    the store back as it was, with the answer 200 [{"ok": true}]. *)
Theorem getOrCreateChat_delete_chat (chatId : jsstring) (chats : store) :
  chatId <> [] ->
  JsMap.get chats chatId = None ->
  delete_chat chatId (getOrCreateChat chatId chats).1
  = (chats, mkResponse 200 BOk).
Proof.
  intros Hne Hget. rewrite getOrCreateChat_fresh by done. simpl.
  rewrite <- (set_absent chats chatId [system_message]) by done.
  unfold delete_chat, JsMap.has. rewrite get_set_eq.
  rewrite delete_set_absent by done. by destruct chatId.
Qed.

Lemma getOrCreateChat_delete_chat_witness :
  let chats : store := [(lit "a", [system_message; user_message (lit "hi")])] in
  lit "b" <> []
  /\ JsMap.get chats (lit "b") = None
  /\ delete_chat (lit "b") (getOrCreateChat (lit "b") chats).1
     = (chats, mkResponse 200 BOk).
Proof.
  split; [discriminate|]. split; [reflexivity|].
  apply (getOrCreateChat_delete_chat (lit "b")
           [(lit "a", [system_message; user_message (lit "hi")])]).
  - discriminate.
  - reflexivity.
Defined.

(** X9: in every reachable state [GET /api/chats] answers 200 with each
    stored chat identifier once, never the empty identifier, and an
    identifier is listed exactly when the store holds a history for it. *)
Theorem list_chats_reachable (s : server) :
  reachable s ->
  exists chatIds,
    list_chats (chats s) = mkResponse 200 (BChatIds chatIds)
    /\ NoDup chatIds
    /\ ([] ∉ chatIds)
    /\ forall chatId,
         chatId ∈ chatIds <-> is_Some (JsMap.get (chats s) chatId).
Proof.
  intros Hreach. destruct (keys_reachable s Hreach) as [Hnd Hne].
  exists (JsMap.keys (chats s)). split; [done|]. split; [done|].
  split; [done|]. intros chatId. symmetry. apply get_keys.
Qed.

Lemma list_chats_reachable_witness :
  let s := run [PostChat (chat_request (JStr (lit "c1")) (JStr (lit "hi")));
                PostChat (chat_request (JStr (lit "c2")) (JStr (lit "yo")));
                PostChat (chat_request (JStr (lit "c1")) (JStr (lit "again")))]
             init in
  reachable s
  /\ list_chats (chats s) = mkResponse 200 (BChatIds [lit "c1"; lit "c2"])
  /\ exists chatIds,
       list_chats (chats s) = mkResponse 200 (BChatIds chatIds)
       /\ NoDup chatIds
       /\ ([] ∉ chatIds)
       /\ forall chatId,
            chatId ∈ chatIds <-> is_Some (JsMap.get (chats s) chatId).
Proof.
  assert (Hreach : reachable
    (run [PostChat (chat_request (JStr (lit "c1")) (JStr (lit "hi")));
          PostChat (chat_request (JStr (lit "c2")) (JStr (lit "yo")));
          PostChat (chat_request (JStr (lit "c1")) (JStr (lit "again")))]
       init)).
  { by eexists. }
  split; [exact Hreach|]. split; [reflexivity|].
  apply (list_chats_reachable _ Hreach).
Defined.

(** X10: deleting a chat takes its identifier, and only it, out of the
    listing: the other identifiers stay, in the order they had, and
    nothing changes when the chat was not stored. *)
Theorem delete_chat_listing (chatId : jsstring) (chats : store) :
  chatId <> [] ->
  JsMap.keys (delete_chat chatId chats).1
  = filter (fun k => k <> chatId) (JsMap.keys chats)
  /\ (JsMap.get chats chatId = None -> (delete_chat chatId chats).1 = chats).
Proof.
  intros Hne. split; [by apply keys_delete_chat|].
  intros Hget. unfold delete_chat, JsMap.has. rewrite Hget.
  by destruct (negb (truthy (JStr chatId))).
Qed.

Lemma delete_chat_listing_witness :
  let chats : store :=
    [(lit "a", [system_message]); (lit "b", [system_message]);
     (lit "c", [system_message])] in
  lit "b" <> []
  /\ JsMap.keys (delete_chat (lit "b") chats).1 = [lit "a"; lit "c"]
  /\ JsMap.keys (delete_chat (lit "b") chats).1
     = filter (fun k => k <> lit "b") (JsMap.keys chats)
  /\ (JsMap.get chats (lit "b") = None ->
      (delete_chat (lit "b") chats).1 = chats).
Proof.
  split; [discriminate|]. split; [reflexivity|].
  apply (delete_chat_listing (lit "b")
           [(lit "a", [system_message]); (lit "b", [system_message]);
            (lit "c", [system_message])]).
  discriminate.
Defined.

(** ** More on replies *)

Section MoreReplies.
Implicit Types (s : jsstring) (c : N).

Lemma trim_start_head s c : head (trim_start s) = Some c -> is_ws c = false.
Proof.
  induction s as [|d s IH]; simpl; [done|].
  destruct (is_ws d) eqn:Hd; [exact IH|]. simpl. by intros [= <-].
Qed.

Lemma trim_start_suffix s : trim_start s `suffix_of` s.
Proof.
  induction s as [|d s IH]; simpl; [done|].
  destruct (is_ws d); [by apply suffix_cons_r|done].
Qed.

Lemma trim_last s c : last (trim s) = Some c -> is_ws c = false.
Proof.
  unfold trim, trim_end. rewrite last_reverse. apply trim_start_head.
Qed.

Lemma trim_head s c : head (trim s) = Some c -> is_ws c = false.
Proof.
  unfold trim, trim_end. rewrite head_reverse. intros Hlast.
  destruct (trim_start_suffix (reverse (trim_start s))) as [pre Hpre].
  assert (Hl : last (reverse (trim_start s)) = Some c).
  { rewrite Hpre, last_app, Hlast. done. }
  rewrite last_reverse in Hl. by apply trim_start_head in Hl.
Qed.

Lemma trim_infix s : exists before after, s = before ++ trim s ++ after.
Proof.
  unfold trim, trim_end.
  destruct (trim_start_suffix s) as [before Hs].
  destruct (trim_start_suffix (reverse (trim_start s))) as [after Ha].
  exists before, (reverse after). rewrite <- reverse_app, <- Ha.
  by rewrite reverse_involutive.
Qed.

Lemma completion_reply_cases (completion : jsval) (reply : jsstring) :
  completion_reply completion = Some reply ->
  reply = FALLBACK_REPLY
  \/ exists content,
       completion_content completion = Some (JStr content)
       /\ reply = trim content /\ reply <> [].
Proof.
  unfold completion_reply, trimmed_content.
  destruct (completion_content completion) as [[| | | |content| |]|];
    simpl; try discriminate; try (intros [= <-]; by left).
  unfold js_or. simpl. destruct (trim content) as [|c t] eqn:Htrim; simpl.
  - intros [= <-]. by left.
  - intros [= <-]. right. exists content. by rewrite Htrim.
Qed.

Lemma completion_reply_content (completion : jsval) (content : jsstring) :
  completion_content completion = Some (JStr content) ->
  ~ whitespace_only content ->
  completion_reply completion = Some (trim content).
Proof.
  intros Hc Hws. unfold completion_reply, trimmed_content. rewrite Hc. simpl.
  unfold js_or. simpl. destruct (trim content) eqn:Htrim; [|done].
  destruct Hws. by apply trim_nil_inv.
Qed.

Lemma completion_reply_throws (completion v : jsval) :
  completion_content completion = Some v ->
  is_string v = false -> v <> JUndefined -> v <> JNull ->
  completion_reply completion = None.
Proof.
  intros Hc Hs Hu Hn. unfold completion_reply, trimmed_content. rewrite Hc.
  by destruct v.
Qed.
End MoreReplies.

Section MorePostChat.
Implicit Types (chats : store) (reqBody : jsval) (id text : jsstring).

Lemma get_resume_ne id up chats other :
  id <> other ->
  JsMap.get (post_chat_resume id up chats).1 other = JsMap.get chats other.
Proof.
  intros Hne. destruct (post_chat_resume_cases id up chats)
    as [->|(reply & updated & Hget & ->)]; [done|]. simpl.
  by apply get_set_ne.
Qed.

Lemma post_chat_valid (openai : client) reqBody chats id text :
  body_field reqBody (lit "chatId") = JStr id -> id <> [] ->
  body_field reqBody (lit "message") = JStr text -> text <> [] ->
  let sent := trimHistory (history_of chats id ++ [user_message text]) in
  post_chat openai reqBody chats
  = (let '(chats', r) :=
       post_chat_resume id (openai (Some sent)) (JsMap.set chats id sent) in
     (chats', r, [Some sent])).
Proof.
  intros Hid Hne Htext Hnet. unfold post_chat.
  by rewrite (post_chat_begin_valid reqBody chats id text).
Qed.

Lemma trimHistory_app_trim (history more : list Message) :
  trimHistory (trimHistory history ++ more) = trimHistory (history ++ more).
Proof.
  destruct history as [|m rest]; [done|]. apply trimHistory_absorbs_cons.
Qed.

Lemma trimHistory_exchange (history : list Message) (u a : Message) :
  trimHistory (trimHistory (history ++ [u]) ++ [a])
  = trimHistory (history ++ [u; a]).
Proof.
  destruct history as [|m rest]; simpl app at 2.
  - apply (trimHistory_absorbs_cons u [] [a]).
  - rewrite (trimHistory_absorbs_cons m (rest ++ [u]) [a]).
    by rewrite <- app_comm_cons, <- app_assoc.
Qed.
End MorePostChat.

(** ** The POST handler: what a request changes and what it answers *)

(** X11: a POST never touches the history of another chat: neither its
    first half, nor the whole request served at once, nor the second half
    of any request resumed for a different chat. *)
Theorem post_chat_other_chats
    (openai : client) (reqBody : jsval) (chats : store) (other : jsstring) :
  body_field reqBody (lit "chatId") <> JStr other ->
  JsMap.get (post_chat_begin reqBody chats).1 other = JsMap.get chats other
  /\ JsMap.get (post_chat openai reqBody chats).1.1 other
     = JsMap.get chats other
  /\ forall chatId up,
       chatId <> other ->
       JsMap.get (post_chat_resume chatId up chats).1 other
       = JsMap.get chats other.
Proof.
  intros Hother. split; [|split].
  - destruct (post_chat_begin_cases reqBody chats)
      as [->|[->|(id & text & Hid & _ & _ & _ & ->)]]; try done. simpl.
    apply get_set_ne. intros ->. by apply Hother.
  - unfold post_chat.
    destruct (post_chat_begin_cases reqBody chats)
      as [->|[->|(id & text & Hid & _ & _ & _ & ->)]]; try done.
    assert (Hne : id <> other) by (intros ->; by apply Hother).
    pose proof (get_resume_ne id
      (openai (Some (trimHistory
                       (history_of chats id ++ [user_message text]))))
      (JsMap.set chats id
         (trimHistory (history_of chats id ++ [user_message text])))
      other Hne) as Hres.
    destruct (post_chat_resume _ _ _) as [chats' r]. simpl in *.
    rewrite Hres. by apply get_set_ne.
  - intros chatId up Hne. by apply get_resume_ne.
Qed.

Lemma post_chat_other_chats_witness :
  let chats : store := [(lit "a", [system_message; user_message (lit "hi")])] in
  let reqBody := chat_request (JStr (lit "b")) (JStr (lit "yo")) in
  let openai : client :=
    fun _ => Resolves (completion_with (JStr (lit "ok"))) in
  body_field reqBody (lit "chatId") <> JStr (lit "a")
  /\ JsMap.get (post_chat_begin reqBody chats).1 (lit "a")
     = JsMap.get chats (lit "a")
  /\ JsMap.get (post_chat openai reqBody chats).1.1 (lit "a")
     = JsMap.get chats (lit "a")
  /\ forall chatId up,
       chatId <> lit "a" ->
       JsMap.get (post_chat_resume chatId up chats).1 (lit "a")
       = JsMap.get chats (lit "a").
Proof.
  split; [discriminate|].
  apply (post_chat_other_chats
           (fun _ => Resolves (completion_with (JStr (lit "ok"))))
           (chat_request (JStr (lit "b")) (JStr (lit "yo")))
           [(lit "a", [system_message; user_message (lit "hi")])] (lit "a")).
  discriminate.
Defined.

(** X12: an accepted POST leaves the listing in its order: a chat already
    stored keeps its place and a new one is listed last, whatever the
    upstream client then does; the second half of the handler never adds
    nor removes an identifier. *)
Theorem post_chat_listing
    (openai : client) (reqBody : jsval) (chats : store)
    (chatId message : jsstring) :
  body_field reqBody (lit "chatId") = JStr chatId -> chatId <> [] ->
  body_field reqBody (lit "message") = JStr message -> message <> [] ->
  JsMap.keys (post_chat openai reqBody chats).1.1
  = (if JsMap.has chats chatId then JsMap.keys chats
     else JsMap.keys chats ++ [chatId])
  /\ forall up stored,
       JsMap.keys (post_chat_resume chatId up stored).1 = JsMap.keys stored.
Proof.
  intros Hid Hne Htext Hnet. split; [|intros; apply keys_resume].
  rewrite (post_chat_valid openai reqBody chats chatId message) by done.
  cbv zeta.
  pose proof (keys_resume chatId
    (openai (Some (trimHistory
                     (history_of chats chatId ++ [user_message message]))))
    (JsMap.set chats chatId
       (trimHistory (history_of chats chatId ++ [user_message message]))))
    as Hres.
  destruct (post_chat_resume _ _ _) as [chats' r]. simpl in *.
  rewrite Hres. unfold JsMap.has.
  destruct (JsMap.get chats chatId) as [h|] eqn:Hget.
  - apply keys_set_present. eauto.
  - by apply keys_set_absent.
Qed.

Lemma post_chat_listing_witness :
  let chats : store :=
    [(lit "a", [system_message]); (lit "b", [system_message])] in
  let openai : client := fun _ => Rejects in
  JsMap.keys
    (post_chat openai (chat_request (JStr (lit "a")) (JStr (lit "hi")))
       chats).1.1
  = [lit "a"; lit "b"]
  /\ JsMap.keys
       (post_chat openai (chat_request (JStr (lit "c")) (JStr (lit "hi")))
          chats).1.1
     = (if JsMap.has chats (lit "c") then JsMap.keys chats
        else JsMap.keys chats ++ [lit "c"])
  /\ forall up stored,
       JsMap.keys (post_chat_resume (lit "c") up stored).1
       = JsMap.keys stored.
Proof.
  split; [reflexivity|].
  apply (post_chat_listing (fun _ => Rejects)
           (chat_request (JStr (lit "c")) (JStr (lit "hi")))
           [(lit "a", [system_message]); (lit "b", [system_message])]
           (lit "c") (lit "hi")).
  - reflexivity.
  - discriminate.
  - reflexivity.
  - discriminate.
Defined.

(** X13: when the upstream call succeeds with a string that is not blank,
    the answer is 200 with that string trimmed, the client has been sent
    the trimmed history ending in the user's message, and the chat then
    holds what trimming its former history followed by the user's message
    and the reply gives. *)
Theorem post_chat_success
    (openai : client) (reqBody : jsval) (chats : store)
    (chatId message : jsstring) (completion : jsval) (content : jsstring) :
  body_field reqBody (lit "chatId") = JStr chatId -> chatId <> [] ->
  body_field reqBody (lit "message") = JStr message -> message <> [] ->
  (forall messages, openai messages = Resolves completion) ->
  completion_content completion = Some (JStr content) ->
  ~ whitespace_only content ->
  let stored :=
    trimHistory (history_of chats chatId
                 ++ [user_message message; assistant_message (trim content)])
  in
  post_chat openai reqBody chats
  = (JsMap.set chats chatId stored,
     mkResponse 200 (BReply (trim content)),
     [Some (trimHistory (history_of chats chatId ++ [user_message message]))])
  /\ JsMap.get (post_chat openai reqBody chats).1.1 chatId = Some stored
  /\ last stored = Some (assistant_message (trim content)).
Proof.
  intros Hid Hne Htext Hnet Hup Hc Hws stored.
  assert (Hpost : post_chat openai reqBody chats
    = (JsMap.set chats chatId stored,
       mkResponse 200 (BReply (trim content)),
       [Some (trimHistory
                (history_of chats chatId ++ [user_message message]))])).
  { rewrite (post_chat_valid openai reqBody chats chatId message) by done.
    cbv zeta. rewrite Hup.
    erewrite post_chat_resume_replies;
      [|by apply completion_reply_content|apply get_set_eq].
    by rewrite set_set, trimHistory_exchange. }
  split; [exact Hpost|]. split.
  - rewrite Hpost. simpl. apply get_set_eq.
  - unfold stored.
    change [user_message message; assistant_message (trim content)]
      with ([user_message message] ++ [assistant_message (trim content)]).
    rewrite app_assoc. apply last_trimHistory_snoc, assistant_not_system.
Qed.

Lemma post_chat_success_witness :
  let reqBody := chat_request (JStr (lit "c1")) (JStr (lit "hi")) in
  let completion := completion_with (JStr (lit "  hello ")) in
  let openai : client := fun _ => Resolves completion in
  let stored :=
    trimHistory (history_of [] (lit "c1")
                 ++ [user_message (lit "hi");
                     assistant_message (trim (lit "  hello "))]) in
  trim (lit "  hello ") = lit "hello"
  /\ post_chat openai reqBody []
     = (JsMap.set [] (lit "c1") stored,
        mkResponse 200 (BReply (trim (lit "  hello "))),
        [Some (trimHistory
                 (history_of [] (lit "c1") ++ [user_message (lit "hi")]))])
  /\ JsMap.get (post_chat openai reqBody []).1.1 (lit "c1") = Some stored
  /\ last stored = Some (assistant_message (trim (lit "  hello "))).
Proof.
  split; [reflexivity|].
  apply (post_chat_success
           (fun _ => Resolves (completion_with (JStr (lit "  hello "))))
           (chat_request (JStr (lit "c1")) (JStr (lit "hi"))) []
           (lit "c1") (lit "hi")
           (completion_with (JStr (lit "  hello "))) (lit "  hello ")).
  - reflexivity.
  - discriminate.
  - reflexivity.
  - discriminate.
  - reflexivity.
  - reflexivity.
  - intros Hws. vm_compute in Hws. discriminate.
Defined.

(** X14: when the upstream call succeeds but the content of the reply is
    neither a string nor nullish (a number, a boolean, an array, an
    object), calling [trim] on it throws: the answer is 500
    [{"error": "Server error"}] and the chat keeps the user's message as
    its last, with no assistant message after it. *)
Theorem post_chat_content_not_string
    (openai : client) (reqBody : jsval) (chats : store)
    (chatId message : jsstring) (completion content : jsval) :
  body_field reqBody (lit "chatId") = JStr chatId -> chatId <> [] ->
  body_field reqBody (lit "message") = JStr message -> message <> [] ->
  (forall messages, openai messages = Resolves completion) ->
  completion_content completion = Some content ->
  is_string content = false -> content <> JUndefined -> content <> JNull ->
  let sent := trimHistory (history_of chats chatId ++ [user_message message])
  in
  post_chat openai reqBody chats
  = (JsMap.set chats chatId sent,
     mkResponse 500 (BError (lit "Server error")), [Some sent])
  /\ last sent = Some (user_message message).
Proof.
  intros Hid Hne Htext Hnet Hup Hc Hs Hu Hn sent. split.
  - rewrite (post_chat_valid openai reqBody chats chatId message) by done.
    cbv zeta. rewrite Hup. unfold post_chat_resume.
    by rewrite (completion_reply_throws completion content).
  - apply last_trimHistory_snoc, user_not_system.
Qed.

Lemma post_chat_content_not_string_witness :
  let reqBody := chat_request (JStr (lit "c1")) (JStr (lit "hi")) in
  let completion := completion_with (JNum 42) in
  let openai : client := fun _ => Resolves completion in
  let sent :=
    trimHistory (history_of [] (lit "c1") ++ [user_message (lit "hi")]) in
  post_chat openai reqBody []
  = (JsMap.set [] (lit "c1") sent,
     mkResponse 500 (BError (lit "Server error")), [Some sent])
  /\ last sent = Some (user_message (lit "hi")).
Proof.
  apply (post_chat_content_not_string
           (fun _ => Resolves (completion_with (JNum 42)))
           (chat_request (JStr (lit "c1")) (JStr (lit "hi"))) []
           (lit "c1") (lit "hi") (completion_with (JNum 42)) (JNum 42));
    (reflexivity || discriminate).
Defined.

(** X15: the reply of a 200 answer to a POST is never empty and neither
    begins nor ends with white space, and it is the content of the
    assistant message the chat then ends with. *)
Theorem post_chat_resume_reply
    (chatId : jsstring) (up : upstream) (chats : store) (r : response) :
  (post_chat_resume chatId up chats).2 = r ->
  status r = 200 ->
  exists reply history,
    payload r = BReply reply
    /\ reply <> []
    /\ (forall c, head reply = Some c -> is_ws c = false)
    /\ (forall c, last reply = Some c -> is_ws c = false)
    /\ JsMap.get (post_chat_resume chatId up chats).1 chatId = Some history
    /\ last history = Some (assistant_message reply).
Proof.
  unfold post_chat_resume. intros <-.
  destruct up as [|completion]; [discriminate|].
  destruct (completion_reply completion) as [reply|] eqn:Hreply;
    [|discriminate].
  destruct (JsMap.get chats chatId) as [updated|] eqn:Hget; [|discriminate].
  intros _. simpl. eexists reply, _.
  split; [done|]. rewrite set_set, get_set_eq.
  assert (Hshape : reply <> []
            /\ (forall c, head reply = Some c -> is_ws c = false)
            /\ (forall c, last reply = Some c -> is_ws c = false)).
  { destruct (completion_reply_cases completion reply Hreply)
      as [->|(content & _ & -> & Hne)].
    - split; [done|]. split; intros c [= <-]; reflexivity.
    - split; [done|]. split; intros c; [apply trim_head|apply trim_last]. }
  destruct Hshape as (H1 & H2 & H3).
  split; [exact H1|]. split; [exact H2|]. split; [exact H3|].
  split; [reflexivity|]. apply last_trimHistory_snoc, assistant_not_system.
Qed.

Lemma post_chat_resume_reply_witness :
  let chats : store := [(lit "c1", [system_message; user_message (lit "hi")])]
  in
  let up := Resolves (completion_with (JStr (lit "  hello "))) in
  status (post_chat_resume (lit "c1") up chats).2 = 200
  /\ exists reply history,
       payload (post_chat_resume (lit "c1") up chats).2 = BReply reply
       /\ reply <> []
       /\ (forall c, head reply = Some c -> is_ws c = false)
       /\ (forall c, last reply = Some c -> is_ws c = false)
       /\ JsMap.get (post_chat_resume (lit "c1") up chats).1 (lit "c1")
          = Some history
       /\ last history = Some (assistant_message reply).
Proof.
  split; [reflexivity|].
  apply (post_chat_resume_reply (lit "c1")
           (Resolves (completion_with (JStr (lit "  hello "))))
           [(lit "c1", [system_message; user_message (lit "hi")])] _ eq_refl).
  reflexivity.
Defined.


(** X17: in every reachable state, what an accepted POST sends to the
    upstream client is the history it has just stored for the chat: the
    system prompt, then at most [MAX_TURNS * 2] non-system messages, the
    user's message last. *)
Theorem post_chat_sends_history
    (s : server) (reqBody : jsval) (chatId message : jsstring) :
  reachable s ->
  body_field reqBody (lit "chatId") = JStr chatId -> chatId <> [] ->
  body_field reqBody (lit "message") = JStr message -> message <> [] ->
  exists rest,
    post_chat_begin reqBody (chats s)
    = (JsMap.set (chats s) chatId (system_message :: rest),
       Awaiting chatId (Some (system_message :: rest)))
    /\ Forall not_system rest
    /\ length rest <= MAX_TURNS * 2
    /\ last rest = Some (user_message message).
Proof.
  intros Hreach Hid Hne Htext Hnet.
  pose proof (history_of_ok (chats s) chatId (reachable_store_ok s Hreach))
    as Hok.
  pose proof (chat_ok_trim _ [user_message message] Hok)
    as (rest & Hrest & Hall & Hlen).
  pose proof (last_trimHistory_snoc (history_of (chats s) chatId)
                (user_message message) (user_not_system message)) as Hlast.
  exists rest. rewrite (post_chat_begin_valid reqBody _ chatId message) by done.
  cbv zeta. rewrite Hrest. split; [done|]. split; [done|]. split; [done|].
  rewrite Hrest, last_cons in Hlast.
  destruct (last rest) as [m|]; [done|]. by injection Hlast.
Qed.

Lemma post_chat_sends_history_witness :
  let s := run [PostChat (chat_request (JStr (lit "c1")) (JStr (lit "hi")));
                Settle 0 (Resolves (completion_with (JStr (lit "hello"))))]
             init in
  let reqBody := chat_request (JStr (lit "c1")) (JStr (lit "more")) in
  reachable s
  /\ exists rest,
       post_chat_begin reqBody (chats s)
       = (JsMap.set (chats s) (lit "c1") (system_message :: rest),
          Awaiting (lit "c1") (Some (system_message :: rest)))
       /\ Forall not_system rest
       /\ length rest <= MAX_TURNS * 2
       /\ last rest = Some (user_message (lit "more")).
Proof.
  assert (Hreach : reachable
    (run [PostChat (chat_request (JStr (lit "c1")) (JStr (lit "hi")));
          Settle 0 (Resolves (completion_with (JStr (lit "hello"))))]
       init)).
  { by eexists. }
  split; [exact Hreach|].
  apply (post_chat_sends_history _
           (chat_request (JStr (lit "c1")) (JStr (lit "more")))
           (lit "c1") (lit "more") Hreach);
    (reflexivity || discriminate).
Defined.



(** X19: in every reachable state a successful exchange appends the
    user's message and the reply to the chat and evicts, from the oldest
    message after the system prompt on, only what then exceeds
    [MAX_TURNS * 2]; below that bound the history just grows by the two
    messages. *)
Theorem post_chat_exchange
    (s : server) (openai : client) (reqBody : jsval)
    (chatId message : jsstring) (completion : jsval) (reply : jsstring) :
  reachable s ->
  body_field reqBody (lit "chatId") = JStr chatId -> chatId <> [] ->
  body_field reqBody (lit "message") = JStr message -> message <> [] ->
  (forall messages, openai messages = Resolves completion) ->
  completion_reply completion = Some reply ->
  exists rest,
    history_of (chats s) chatId = system_message :: rest
    /\ JsMap.get (post_chat openai reqBody (chats s)).1.1 chatId
       = Some (system_message
               :: drop (length rest + 2 - MAX_TURNS * 2)
                    (rest ++ [user_message message;
                              assistant_message reply]))
    /\ (length rest + 2 <= MAX_TURNS * 2 ->
        JsMap.get (post_chat openai reqBody (chats s)).1.1 chatId
        = Some (history_of (chats s) chatId
                ++ [user_message message; assistant_message reply])).
Proof.
  intros Hreach Hid Hne Htext Hnet Hup Hreply.
  pose proof (history_of_ok (chats s) chatId (reachable_store_ok s Hreach))
    as (rest & Hrest & Hall & Hlen).
  exists rest. split; [done|].
  assert (Hget : JsMap.get (post_chat openai reqBody (chats s)).1.1 chatId
            = Some (system_message
                    :: drop (length rest + 2 - MAX_TURNS * 2)
                         (rest ++ [user_message message;
                                   assistant_message reply]))).
  { rewrite (post_chat_valid openai reqBody _ chatId message) by done.
    cbv zeta. rewrite Hup.
    erewrite post_chat_resume_replies; [|exact Hreply|apply get_set_eq].
    simpl. rewrite set_set, get_set_eq, trimHistory_exchange, Hrest.
    rewrite <- app_comm_cons.
    pose proof (trimHistory_evicts_oldest_aux system_message
      (rest ++ [user_message message; assistant_message reply])) as Hev.
    rewrite Hev.
    - by rewrite length_app.
    - apply system_message_is_system.
    - apply Forall_app. split; [done|].
      repeat constructor;
        [apply user_not_system|apply assistant_not_system]. }
  split; [exact Hget|]. intros Hfit. rewrite Hget, Hrest.
  replace (length rest + 2 - MAX_TURNS * 2) with 0 by lia. done.
Qed.

Lemma post_chat_exchange_witness :
  let s := run [PostChat (chat_request (JStr (lit "c1")) (JStr (lit "hi")));
                Settle 0 (Resolves (completion_with (JStr (lit "hello"))))]
             init in
  let reqBody := chat_request (JStr (lit "c1")) (JStr (lit "more")) in
  let completion := completion_with (JStr (lit " sure ")) in
  let openai : client := fun _ => Resolves completion in
  reachable s
  /\ completion_reply completion = Some (lit "sure")
  /\ exists rest,
       history_of (chats s) (lit "c1") = system_message :: rest
       /\ JsMap.get (post_chat openai reqBody (chats s)).1.1 (lit "c1")
          = Some (system_message
                  :: drop (length rest + 2 - MAX_TURNS * 2)
                       (rest ++ [user_message (lit "more");
                                 assistant_message (lit "sure")]))
       /\ (length rest + 2 <= MAX_TURNS * 2 ->
           JsMap.get (post_chat openai reqBody (chats s)).1.1 (lit "c1")
           = Some (history_of (chats s) (lit "c1")
                   ++ [user_message (lit "more");
                       assistant_message (lit "sure")])).
Proof.
  assert (Hreach : reachable
    (run [PostChat (chat_request (JStr (lit "c1")) (JStr (lit "hi")));
          Settle 0 (Resolves (completion_with (JStr (lit "hello"))))]
       init)).
  { by eexists. }
  split; [exact Hreach|]. split; [reflexivity|].
  apply (post_chat_exchange _
           (fun _ => Resolves (completion_with (JStr (lit " sure "))))
           (chat_request (JStr (lit "c1")) (JStr (lit "more")))
           (lit "c1") (lit "more")
           (completion_with (JStr (lit " sure "))) (lit "sure") Hreach);
    (reflexivity || discriminate).
Defined.

(** ** Deleting and posting, interleaved *)

(** X20: deleting a chat forgets its history: the next accepted POST for
    the same identifier starts from the system prompt alone, and sends the
    upstream client the system prompt and the new message only. *)
Theorem delete_chat_forgets
    (reqBody : jsval) (chats : store) (chatId message : jsstring) :
  body_field reqBody (lit "chatId") = JStr chatId -> chatId <> [] ->
  body_field reqBody (lit "message") = JStr message -> message <> [] ->
  exists chats',
    post_chat_begin reqBody (delete_chat chatId chats).1
    = (chats',
       Awaiting chatId (Some [system_message; user_message message]))
    /\ JsMap.get chats' chatId
       = Some [system_message; user_message message].
Proof.
  intros Hid Hne Htext Hnet.
  assert (Hgone : JsMap.get (delete_chat chatId chats).1 chatId = None).
  { unfold delete_chat, JsMap.has.
    destruct (negb (truthy (JStr chatId))) eqn:Ht; [by destruct chatId|].
    destruct (JsMap.get chats chatId) eqn:Hget; simpl;
      [apply get_delete_eq|done]. }
  assert (Hfresh : history_of (delete_chat chatId chats).1 chatId
                   = [system_message]).
  { unfold history_of. by rewrite Hgone. }
  rewrite (post_chat_begin_valid reqBody _ chatId message) by done.
  cbv zeta. rewrite Hfresh.
  rewrite (trimHistory_fixed [system_message] [user_message message]).
  - eexists. split; [reflexivity|]. apply get_set_eq.
  - right. exists system_message. split; [done|].
    apply system_message_is_system.
  - repeat constructor. apply user_not_system.
  - rewrite max_messages. simpl. lia.
Qed.

Lemma delete_chat_forgets_witness :
  let chats : store :=
    [(lit "c1", [system_message; user_message (lit "hi");
                 assistant_message (lit "hello")])] in
  let reqBody := chat_request (JStr (lit "c1")) (JStr (lit "anew")) in
  exists chats',
    post_chat_begin reqBody (delete_chat (lit "c1") chats).1
    = (chats',
       Awaiting (lit "c1") (Some [system_message; user_message (lit "anew")]))
    /\ JsMap.get chats' (lit "c1")
       = Some [system_message; user_message (lit "anew")].
Proof.
  apply (delete_chat_forgets
           (chat_request (JStr (lit "c1")) (JStr (lit "anew")))
           [(lit "c1", [system_message; user_message (lit "hi");
                        assistant_message (lit "hello")])]
           (lit "c1") (lit "anew"));
    (reflexivity || discriminate).
Defined.



(** ** The lazy upstream client *)

(** X22: once [getOpenAI] has returned a client, every later call returns
    that same client, constructs nothing and logs nothing, whatever the
    API key has become; the first call logged its line exactly when it
    had to construct the client. *)
Theorem getOpenAI_singleton
    {Client : Type} (construct construct' : jsval -> option Client)
    (apiKey apiKey' : jsval) (openaiClient : option Client) (c : Client) :
  (getOpenAI construct apiKey openaiClient).1.2 = Some c ->
  getOpenAI construct' apiKey' (getOpenAI construct apiKey openaiClient).1.1
  = (Some c, Some c, [])
  /\ ((getOpenAI construct apiKey openaiClient).2 = [CLIENT_INITIALIZED]
      <-> openaiClient = None).
Proof.
  unfold getOpenAI. destruct openaiClient as [c0|]; simpl.
  - intros [= ->]. split; [done|]. split; discriminate.
  - destruct (construct apiKey) as [c0|]; simpl; [|discriminate].
    intros [= ->]. done.
Qed.

Lemma getOpenAI_singleton_witness :
  let construct : jsval -> option nat :=
    fun key => if is_string key then Some 7 else None in
  (getOpenAI construct (JStr (lit "sk")) None).1.2 = Some 7
  /\ getOpenAI construct JUndefined
       (getOpenAI construct (JStr (lit "sk")) None).1.1
     = (Some 7, Some 7, [])
  /\ ((getOpenAI construct (JStr (lit "sk")) None).2 = [CLIENT_INITIALIZED]
      <-> (None : option nat) = None).
Proof.
  split; [reflexivity|].
  apply (getOpenAI_singleton
           (fun key => if is_string key then Some 7 else None)
           (fun key => if is_string key then Some 7 else None)
           (JStr (lit "sk")) JUndefined None 7).
  reflexivity.
Defined.

(** X23: [getOpenAI] throws only when no client is kept and the
    constructor throws on the API key; it then logs nothing and keeps no
    client, so that the next call tries to construct one again. *)
Theorem getOpenAI_failure
    {Client : Type} (construct : jsval -> option Client)
    (apiKey : jsval) (openaiClient : option Client) :
  (getOpenAI construct apiKey openaiClient).1.2 = None ->
  openaiClient = None
  /\ construct apiKey = None
  /\ getOpenAI construct apiKey openaiClient = (None, None, [])
  /\ forall apiKey',
       getOpenAI construct apiKey'
         (getOpenAI construct apiKey openaiClient).1.1
       = getOpenAI construct apiKey' None.
Proof.
  unfold getOpenAI. destruct openaiClient as [c0|]; simpl; [discriminate|].
  destruct (construct apiKey) as [c0|]; simpl; [discriminate|]. done.
Qed.

Lemma getOpenAI_failure_witness :
  let construct : jsval -> option nat :=
    fun key => if is_string key then Some 7 else None in
  (getOpenAI construct JUndefined None).1.2 = None
  /\ (None : option nat) = None
  /\ construct JUndefined = None
  /\ getOpenAI construct JUndefined None = (None, None, [])
  /\ forall apiKey',
       getOpenAI construct apiKey'
         (getOpenAI construct JUndefined None).1.1
       = getOpenAI construct apiKey' None.
Proof.
  split; [reflexivity|].
  apply (getOpenAI_failure
           (fun key => if is_string key then Some 7 else None)
           JUndefined None).
  reflexivity.
Defined.

(** ** Bodies that are not objects, and two requests at once *)



(** X25: two POSTs for the same chat that are both awaiting the upstream
    client: the chat holds both user messages in the order the requests
    came in, and the replies are then appended in the order the calls
    settle; in the end the chat is what trimming the former history
    followed by these four messages gives. *)
Theorem post_chat_interleaved
    (chats : store) (first second : jsval) (chatId : jsstring)
    (message1 message2 : jsstring) (completion1 completion2 : jsval)
    (reply1 reply2 : jsstring) :
  chatId <> [] ->
  body_field first (lit "chatId") = JStr chatId ->
  body_field first (lit "message") = JStr message1 -> message1 <> [] ->
  body_field second (lit "chatId") = JStr chatId ->
  body_field second (lit "message") = JStr message2 -> message2 <> [] ->
  completion_reply completion1 = Some reply1 ->
  completion_reply completion2 = Some reply2 ->
  let begun1 := (post_chat_begin first chats).1 in
  let begun2 := (post_chat_begin second begun1).1 in
  let settled1 := (post_chat_resume chatId (Resolves completion1) begun2).1 in
  let settled2 :=
    (post_chat_resume chatId (Resolves completion2) settled1).1 in
  JsMap.get begun2 chatId
  = Some (trimHistory (history_of chats chatId
                       ++ [user_message message1; user_message message2]))
  /\ JsMap.get settled2 chatId
     = Some (trimHistory
               (history_of chats chatId
                ++ [user_message message1; user_message message2;
                    assistant_message reply1; assistant_message reply2])).
Proof.
  intros Hne Hid1 Htext1 Hnet1 Hid2 Htext2 Hnet2 Hr1 Hr2.
  intros begun1 begun2 settled1 settled2.
  assert (Hb1 : JsMap.get begun1 chatId
                = Some (trimHistory (history_of chats chatId
                                     ++ [user_message message1]))).
  { unfold begun1.
    rewrite (post_chat_begin_valid first chats chatId message1) by done.
    apply get_set_eq. }
  assert (Hb2 : JsMap.get begun2 chatId
                = Some (trimHistory
                          (history_of chats chatId
                           ++ [user_message message1;
                               user_message message2]))).
  { unfold begun2.
    rewrite (post_chat_begin_valid second begun1 chatId message2) by done.
    simpl. rewrite get_set_eq. unfold history_of at 1. rewrite Hb1. simpl.
    by rewrite trimHistory_exchange. }
  split; [exact Hb2|].
  assert (Hs1 : JsMap.get settled1 chatId
                = Some (trimHistory
                          (history_of chats chatId
                           ++ [user_message message1; user_message message2;
                               assistant_message reply1]))).
  { unfold settled1.
    rewrite (post_chat_resume_replies chatId completion1 reply1 begun2 _
               Hr1 Hb2).
    simpl. rewrite get_set_eq, trimHistory_app_trim.
    by rewrite <- app_assoc. }
  unfold settled2.
  rewrite (post_chat_resume_replies chatId completion2 reply2 settled1 _
             Hr2 Hs1).
  simpl. rewrite get_set_eq, trimHistory_app_trim.
  by rewrite <- app_assoc.
Qed.

Lemma post_chat_interleaved_witness :
  let first := chat_request (JStr (lit "c1")) (JStr (lit "one")) in
  let second := chat_request (JStr (lit "c1")) (JStr (lit "two")) in
  let completion1 := completion_with (JStr (lit "first")) in
  let completion2 := completion_with (JStr (lit "second")) in
  let begun1 := (post_chat_begin first []).1 in
  let begun2 := (post_chat_begin second begun1).1 in
  let settled1 :=
    (post_chat_resume (lit "c1") (Resolves completion1) begun2).1 in
  let settled2 :=
    (post_chat_resume (lit "c1") (Resolves completion2) settled1).1 in
  JsMap.get settled2 (lit "c1")
  = Some [system_message; user_message (lit "one"); user_message (lit "two");
          assistant_message (lit "first"); assistant_message (lit "second")]
  /\ JsMap.get begun2 (lit "c1")
     = Some (trimHistory (history_of [] (lit "c1")
                          ++ [user_message (lit "one");
                              user_message (lit "two")]))
  /\ JsMap.get settled2 (lit "c1")
     = Some (trimHistory
               (history_of [] (lit "c1")
                ++ [user_message (lit "one"); user_message (lit "two");
                    assistant_message (lit "first");
                    assistant_message (lit "second")])).
Proof.
  split; [reflexivity|].
  apply (post_chat_interleaved []
           (chat_request (JStr (lit "c1")) (JStr (lit "one")))
           (chat_request (JStr (lit "c1")) (JStr (lit "two")))
           (lit "c1") (lit "one") (lit "two")
           (completion_with (JStr (lit "first")))
           (completion_with (JStr (lit "second")))
           (lit "first") (lit "second"));
    (reflexivity || discriminate).
Defined.
